(** * boost::process::system — the blocking launch facade

    A shallow embedding of [include/boost/process/system.hpp]: the entry
    point [system] and the four overloads of [detail::system_impl] it
    dispatches to, run against an explicit model of the collaborators the
    header only uses (the [child] class, [on_exit], the classification
    traits and [boost::asio::io_service]).

    The store ([world]) holds the io_service objects by address, the child's
    shared exit status, the [exited] flag of the first overload and the
    trace of collaborator calls.  A call that does not return (a blocking
    call on a process that never exits, or a polling loop that runs out of
    fuel) has result [None]. *)

From stdpp Require Import base option list gmap.
From Stdlib Require Import ZArith Lia.

(** ** Data model *)

(** Address of an io_service object. *)
Definition addr := nat.

(** Value of a [std::error_code]. *)
Definition error_code := Z.

(** Completion handlers, invoked as [(exit_code, error_code) -> void]. *)
Inductive handler :=
| User (id : nat)            (* a completion handler of the caller *)
| Resume (token : nat)       (* resumption of a suspended coroutine *)
| PostExited (ios : addr).   (* the lambda of system_impl:
                                [&](int, const std::error_code&)
                                  { ios.post([&]{exited.store(true);}); } *)

(** Handlers queued on an io_service. *)
Inductive task :=
| StoreExited                (* [&]{exited.store(true);} *)
| Foreign (id : nat).        (* unrelated work of the caller *)

(** One launch property (an element of [Args...]). *)
Inductive arg :=
| Exe (cmd : nat)            (* executable and arguments *)
| Env (k : nat)              (* environment override *)
| Stream (k : nat)           (* I/O binding *)
| IoService (a : addr)       (* boost::asio::io_service & *)
| OnExit (h : handler)       (* boost::process::on_exit(h) *)
| Yield (token : nat)        (* boost::asio::yield_context *)
| SigDfl.                    (* boost::process::posix::sig.dfl() *)

(** What the operating system makes of a launch request. *)
Record proc := Proc {
  p_valid : bool;            (* the process could be created *)
  p_code : Z;                (* the exit code it terminates with *)
  p_ec : error_code;         (* the error code handed to on_exit handlers *)
  p_delay : option nat       (* scheduler rounds before the exit is
                                reported; None: it never exits *)
}.

(** An asynchronous wait for the child's exit, outstanding on an
    io_service. *)
Record pending := Pending {
  pw_ios : addr;
  pw_delay : option nat;
  pw_code : Z;
  pw_ec : error_code;
  pw_handlers : list handler
}.

Inductive event :=
| EvIosCtor (a : addr)                         (* IoService ios; *)
| EvIosDtor (a : addr)                         (* ~IoService *)
| EvCreate (args : list arg)                   (* child c(args...) *)
| EvWait                                       (* c.wait() *)
| EvPoll (a : addr)                            (* ios.poll() *)
| EvRun (a : addr)                             (* ios.run() *)
| EvPost (a : addr) (t : task)                 (* ios.post(t) *)
| EvOnExit (h : handler) (code : Z) (ec : error_code)
| EvStore                                      (* exited.store(true) *)
| EvForeign (id : nat).

(** The store.  [trace] is newest first. *)
Record world := World {
  heap : gmap addr (list task);   (* live io_services: their ready handlers *)
  await : option pending;         (* the child's outstanding exit wait *)
  exit_status : Z;                (* the child's shared _exit_status *)
  exited : bool;                  (* std::atomic_bool exited *)
  trace : list event
}.

Definition set_heap (h : gmap addr (list task)) (w : world) : world :=
  World h (await w) (exit_status w) (exited w) (trace w).
Definition set_await (p : option pending) (w : world) : world :=
  World (heap w) p (exit_status w) (exited w) (trace w).
Definition set_exit_status (z : Z) (w : world) : world :=
  World (heap w) (await w) z (exited w) (trace w).
Definition set_exited (b : bool) (w : world) : world :=
  World (heap w) (await w) (exit_status w) b (trace w).
Definition log (e : event) (w : world) : world :=
  World (heap w) (await w) (exit_status w) (exited w) (e :: trace w).

(** ** Classification of the argument pack *)

Definition is_async (o : arg) : bool :=
  match o with OnExit _ | Yield _ => true | _ => false end.

Definition is_io_service (o : arg) : bool :=
  match o with IoService _ => true | _ => false end.

(** Modelled from the spec: the trait [detail::needs_io_service<Args...>]
    (declared in detail/async_handler.hpp, not part of this header): true
    iff the pack contains an option that requires a scheduler, a completion
    handler or a coroutine-suspension token. *)
Definition needs_io_service (args : list arg) : bool := existsb is_async args.

(** Modelled from the spec: the trait [detail::has_io_service<Args...>]:
    true iff the pack contains an explicit scheduler reference. *)
Definition has_io_service (args : list arg) : bool := existsb is_io_service args.

(** Modelled from the spec: [detail::get_io_service_var(args...)], the
    scheduler reference of the pack (the first one). *)
Fixpoint get_io_service_var (args : list arg) : option addr :=
  match args with
  | [] => None
  | IoService a :: _ => Some a
  | _ :: rest => get_io_service_var rest
  end.

(** The handlers notified of the child's exit, in argument order. *)
Fixpoint on_exit_handlers (args : list arg) : list handler :=
  match args with
  | [] => []
  | OnExit h :: rest => h :: on_exit_handlers rest
  | Yield k :: rest => Resume k :: on_exit_handlers rest
  | _ :: rest => on_exit_handlers rest
  end.

(** ** The scheduler (boost::asio::io_service)

    Modelled from the spec: the Scheduler collaborator, of which this header
    only calls [post], [poll] (the non-blocking drain of the ready work) and
    [run] (blocking until no work remains); single-threaded: handlers run
    inside [poll] or [run] on the calling thread. *)

(** Modelled from the spec: [ios.post(t)] of the scheduler: [t] is queued
    and nothing runs yet. *)
Definition post (a : addr) (t : task) (w : world) : world :=
  let w := log (EvPost a t) w in
  match heap w !! a with
  | Some q => set_heap (<[a := q ++ [t]]> (heap w)) w
  | None => w
  end.

(** Invocation of one on_exit handler; the case [PostExited] is the body of
    the lambda of system_impl. *)
Definition call_handler (code : Z) (ec : error_code) (w : world) (h : handler)
  : world :=
  let w := log (EvOnExit h code ec) w in
  match h with
  | PostExited a => post a StoreExited w
  | User _ | Resume _ => w
  end.

Definition run_task (w : world) (t : task) : world :=
  match t with
  | StoreExited => log EvStore (set_exited true w)
  | Foreign id => log (EvForeign id) w
  end.

(** Modelled from the spec: the scheduler executes the ready handlers of [a]
    in order.  No handler of the model posts, so one pass empties the
    queue. *)
Definition run_ready (a : addr) (w : world) : world :=
  match heap w !! a with
  | Some q => fold_left run_task q (set_heap (<[a := []]> (heap w)) w)
  | None => w
  end.

(** Modelled from the spec: the child's exit is reported (the completion
    notification of the process layer): its status is stored and the on_exit
    handlers are invoked with the exit code and the error code. *)
Definition fire (pw : pending) (w : world) : world :=
  fold_left (call_handler (pw_code pw) (pw_ec pw)) (pw_handlers pw)
            (set_exit_status (pw_code pw) (set_await None w)).

(** Modelled from the spec: one round of io_service [a], in which an exit
    that is due is reported. *)
Definition deliver (a : addr) (w : world) : world :=
  match await w with
  | Some pw =>
      if Nat.eqb (pw_ios pw) a then
        match pw_delay pw with
        | Some O => fire pw w
        | Some (S k) =>
            set_await (Some (Pending (pw_ios pw) (Some k) (pw_code pw)
                                     (pw_ec pw) (pw_handlers pw))) w
        | None => w
        end
      else w
  | None => w
  end.

(** Modelled from the spec: [ios.poll()], the non-blocking drain: it reports
    what has completed and runs the ready handlers. *)
Definition poll (a : addr) (w : world) : world :=
  run_ready a (deliver a (log (EvPoll a) w)).

(** Modelled from the spec: [ios.run()], which blocks until no work
    remains. *)
Definition run (a : addr) (w : world) : option world :=
  let w := run_ready a (log (EvRun a) w) in
  match await w with
  | Some pw =>
      if Nat.eqb (pw_ios pw) a then
        match pw_delay pw with
        | Some _ => Some (run_ready a (fire pw w))
        | None => None
        end
      else Some w
  | None => Some w
  end.

(** Modelled from the spec: [IoService ios;], default construction, at a
    fresh address. *)
Definition io_service_ctor (w : world) : addr * world :=
  let a := fresh (dom (heap w)) in
  (a, log (EvIosCtor a) (set_heap (<[a := []]> (heap w)) w)).

(** Modelled from the spec: [~IoService] at the end of the scope: the object
    and its unexecuted handlers are gone. *)
Definition io_service_dtor (a : addr) (w : world) : world :=
  log (EvIosDtor a) (set_heap (delete a (heap w)) w).

(** No handler is ready on [a] and no wait is outstanding on it. *)
Definition idle (a : addr) (w : world) : Prop :=
  heap w !! a = Some [] /\
  match await w with Some pw => pw_ios pw <> a | None => True end.

(** ** Reading traces *)

Definition task_event (t : task) : event :=
  match t with StoreExited => EvStore | Foreign i => EvForeign i end.

Definition is_store (t : task) : bool :=
  match t with StoreExited => true | Foreign _ => false end.

(** The events of invoking the handlers [hs] in order (oldest first). *)
Definition handler_events (code : Z) (ec : error_code) (hs : list handler)
  : list event :=
  flat_map (fun h => EvOnExit h code ec ::
                     match h with
                     | PostExited a => [EvPost a StoreExited]
                     | _ => []
                     end) hs.

(** The queues after the handlers [hs] have posted. *)
Definition posted (hs : list handler) (h : gmap addr (list task))
  : gmap addr (list task) :=
  fold_left (fun h hd =>
               match hd with
               | PostExited a =>
                   match h !! a with
                   | Some q => <[a := q ++ [StoreExited]]> h
                   | None => h
                   end
               | _ => h
               end) hs h.

Definition is_create (e : event) : bool :=
  match e with EvCreate _ => true | _ => false end.

Definition is_poll (a : addr) (e : event) : bool :=
  match e with EvPoll b => Nat.eqb a b | _ => false end.

(** A wait, drain or run call on a process or scheduler. *)
Definition is_waiting (e : event) : bool :=
  match e with EvWait | EvPoll _ | EvRun _ => true | _ => false end.

(** Any use of a scheduler. *)
Definition is_scheduler_use (e : event) : bool :=
  match e with EvPoll _ | EvRun _ | EvPost _ _ => true | _ => false end.

(** Number of child processes created so far. *)
Definition creations (w : world) : nat :=
  length (List.filter is_create (trace w)).

(** In the events [new] of a call (newest first) the hook of system_impl
    ran with [(code, ec)], the flag was stored afterwards and not before. *)
Definition hook_before_store (a : addr) (code : Z) (ec : error_code)
  (new : list event) : Prop :=
  exists l1 l2, new = l1 ++ EvOnExit (PostExited a) code ec :: l2 /\
                In EvStore l1 /\ ~ In EvStore l2.

(** The io_service is live and holds only work of the caller. *)
Definition caller_owned (a : addr) (w : world) : bool :=
  match heap w !! a with
  | Some q => negb (existsb is_store q)
  | None => false
  end.

(** The scheduler reference of the pack, if any, is [caller_owned]. *)
Definition well_formed (args : list arg) (w : world) : bool :=
  match get_io_service_var args with
  | Some a => caller_owned a w
  | None => true
  end.

(** ** The four waiting strategies of the specification *)

Inductive strategy :=
| DriveSupplied | OwnAndRun | BlockingWithSupplied | BlockingPlain.

(** The table of section 4.2. *)
Definition StrategySelector (needsScheduler suppliesScheduler : bool)
  : strategy :=
  match needsScheduler, suppliesScheduler with
  | true, true => DriveSupplied
  | true, false => OwnAndRun
  | false, true => BlockingWithSupplied
  | false, false => BlockingPlain
  end.

(** The environment with the error code of every process replaced. *)
Definition with_ec (ec : error_code) (spawn : list arg -> proc)
  : list arg -> proc :=
  fun args => let p := spawn args in Proc (p_valid p) (p_code p) ec (p_delay p).

(** Concrete environments and stores. *)
Definition spawn_ok (args : list arg) : proc := Proc true 7%Z 0%Z (Some 2).
Definition spawn_fail (args : list arg) : proc := Proc false 0%Z 0%Z None.
Definition spawn_minus_one (args : list arg) : proc :=
  Proc true (-1)%Z 0%Z (Some 0).
Definition spawn_never (args : list arg) : proc := Proc true 0%Z 0%Z None.
Definition w_caller : world :=
  World {[ 5 := [Foreign 1] ]} None 0%Z false [].
Definition args_tt : list arg := [Exe 1; IoService 5; OnExit (User 3)].
Definition args_tf : list arg := [Exe 1; OnExit (User 3)].
Definition args_ft : list arg := [Exe 1; IoService 5].
Definition args_ff : list arg := [Exe 1].

(** ** Packs of the caller and kinds of events *)

Definition is_hook (h : handler) : bool :=
  match h with PostExited _ => true | _ => false end.

(** No completion handler of the pack is the lambda of system_impl, which a
    caller cannot name. *)
Definition user_pack (args : list arg) : bool :=
  negb (existsb is_hook (on_exit_handlers args)).

Definition on_exit_event (code : Z) (ec : error_code) (h : handler) : event :=
  EvOnExit h code ec.

Definition is_on_exit (e : event) : bool :=
  match e with EvOnExit _ _ _ => true | _ => false end.


Definition is_store_event (e : event) : bool :=
  match e with EvStore => true | _ => false end.

(** A blocking call, or the construction or destruction of an io_service. *)
Definition is_blocking_or_scope (e : event) : bool :=
  match e with
  | EvWait | EvRun _ | EvIosCtor _ | EvIosDtor _ => true
  | _ => false
  end.

(** The events (newest first) of the polling loop of system_impl on
    io_service [a] whose ready handlers are [q], when the exit of the child
    is reported in round [n] to the handlers [hs] and then to the hook. *)
Fixpoint drive_events (a : addr) (code : Z) (ec : error_code)
  (hs : list handler) (q : list task) (n : nat) : list event :=
  match n with
  | O =>
      EvStore :: rev (map task_event q)
        ++ EvPost a StoreExited :: EvOnExit (PostExited a) code ec
        :: rev (map (on_exit_event code ec) hs) ++ [EvPoll a]
  | S k =>
      drive_events a code ec hs [] k ++ rev (map task_event q) ++ [EvPoll a]
  end.

Section System.

(** The environment: the operating system's answer to a launch request, the
    platform's [still_active] status and whether [BOOST_POSIX_API] is
    defined. *)
Variable spawn : list arg -> proc.
Variable still_active : Z.
Variable BOOST_POSIX_API : bool.

(** ** The child process (boost::process::child) *)

(** Modelled from the spec: the constructor [child c(args...)] of child.hpp.
    It never throws; an asynchronous launch registers the wait for the
    child's exit with the io_service of the pack. *)
Definition child_ctor (args : list arg) (w : world) : proc * world :=
  let p := spawn args in
  let w := log (EvCreate args) (set_exit_status still_active w) in
  let reg :=
    if p_valid p && needs_io_service args then
      match get_io_service_var args with
      | Some a => Some (Pending a (p_delay p) (p_code p) (p_ec p)
                                (on_exit_handlers args))
      | None => None
      end
    else None in
  (p, set_await reg w).

(** Modelled from the spec: [c.valid()]. *)
Definition valid (c : proc) : bool := p_valid c.

(** Modelled from the spec: [c.wait()], blocking until the child exits. *)
Definition wait (c : proc) (w : world) : option world :=
  match p_delay c with
  | Some _ => Some (set_exit_status (p_code c) (log EvWait w))
  | None => None
  end.

(** Modelled from the spec: [c.exit_code()], the status observed so far. *)
Definition exit_code (c : proc) (w : world) : Z := exit_status w.

(** ** detail::system_impl *)

(** [while (!exited.load()) ios.poll();] *)
Fixpoint poll_loop (fuel : nat) (a : addr) (w : world) : option world :=
  if exited w then Some w
  else match fuel with
       | O => None
       | S fuel' => poll_loop fuel' a (poll a w)
       end.

(** system_impl(true_type needs ios, true_type has io_service, args...) *)
Definition system_impl_tt (fuel : nat) (args : list arg) (w : world)
  : option (Z * world) :=
  match get_io_service_var args with
  | None => None
  | Some ios =>
      let w := set_exited false w in
      let '(c, w) := child_ctor (args ++ [OnExit (PostExited ios)]) w in
      if negb (valid c) then Some ((-1)%Z, w)
      else
        match poll_loop fuel ios w with
        | Some w => Some (exit_code c w, w)
        | None => None
        end
  end.

(** The scope of the local [ios] in
    system_impl(true_type needs ios, false_type has io_service, args...) *)
Definition system_impl_tf_scope (ios : addr) (args : list arg) (w : world)
  : option (Z * world) :=
  let '(c, w) := child_ctor (IoService ios :: args) w in
  if negb (valid c) then Some ((-1)%Z, w)
  else
    match run ios w with
    | Some w => Some (exit_code c w, w)
    | None => None
    end.

(** system_impl(true_type needs ios, false_type has io_service, args...):
    the local io_service is constructed first and destroyed when the scope
    is left, on either return. *)
Definition system_impl_tf (args : list arg) (w : world) : option (Z * world) :=
  let '(ios, w) := io_service_ctor w in
  match system_impl_tf_scope ios args w with
  | Some (r, w) => Some (r, io_service_dtor ios w)
  | None => None
  end.

(** system_impl(false_type needs ios, true_type has io_service, args...) *)
Definition system_impl_ft (args : list arg) (w : world) : option (Z * world) :=
  let '(c, w) := child_ctor args w in
  if negb (valid c) then Some ((-1)%Z, w)
  else
    match wait c w with
    | Some w => Some (exit_code c w, w)
    | None => None
    end.

(** system_impl(false_type has async, false_type has io_service, args...) *)
Definition system_impl_ff (args : list arg) (w : world) : option (Z * world) :=
  let '(c, w) :=
    child_ctor (args ++ (if BOOST_POSIX_API then [SigDfl] else [])) w in
  if negb (valid c) then Some ((-1)%Z, w)
  else
    match wait c w with
    | Some w => Some (exit_code c w, w)
    | None => None
    end.

(** Overload resolution on the two tags. *)
Definition system_impl (need_ios has_ios : bool) (fuel : nat)
  (args : list arg) (w : world) : option (Z * world) :=
  match need_ios, has_ios with
  | true, true => system_impl_tt fuel args w
  | true, false => system_impl_tf args w
  | false, true => system_impl_ft args w
  | false, false => system_impl_ff args w
  end.

(** ** system *)
Definition system (fuel : nat) (args : list arg) (w : world)
  : option (Z * world) :=
  let need_ios := needs_io_service args in
  let has_ios := has_io_service args in
  system_impl need_ios has_ios fuel args w.

(** The strategy bodies by name. *)
Definition run_strategy (s : strategy) (fuel : nat) (args : list arg)
  (w : world) : option (Z * world) :=
  match s with
  | DriveSupplied => system_impl_tt fuel args w
  | OwnAndRun => system_impl_tf args w
  | BlockingWithSupplied => system_impl_ft args w
  | BlockingPlain => system_impl_ff args w
  end.

(** The argument pack each overload hands to the child constructor. *)
Definition child_args (args : list arg) (w : world) : list arg :=
  match needs_io_service args, has_io_service args with
  | true, true =>
      match get_io_service_var args with
      | Some ios => args ++ [OnExit (PostExited ios)]
      | None => args
      end
  | true, false => IoService (fresh (dom (heap w))) :: args
  | false, true => args
  | false, false => args ++ (if BOOST_POSIX_API then [SigDfl] else [])
  end.

(** ** Basic facts about the scheduler operations *)

Lemma fold_run_task q w :
  fold_left run_task q w =
  World (heap w) (await w) (exit_status w) (exited w || existsb is_store q)
        (rev (map task_event q) ++ trace w).
Proof.
  revert w. induction q as [|t q IH]; intros [h aw es ex tr]; simpl.
  - by rewrite orb_false_r.
  - rewrite IH. destruct t; simpl; rewrite <- app_assoc; simpl.
    + by rewrite orb_true_r.
    + done.
Qed.

Lemma run_ready_live a q w :
  heap w !! a = Some q ->
  run_ready a w =
  World (<[a := []]> (heap w)) (await w) (exit_status w)
        (exited w || existsb is_store q)
        (rev (map task_event q) ++ trace w).
Proof. intros H. unfold run_ready. rewrite H. by rewrite fold_run_task. Qed.

Lemma fold_call_handler code ec hs w :
  fold_left (call_handler code ec) hs w =
  World (posted hs (heap w)) (await w) (exit_status w) (exited w)
        (rev (handler_events code ec hs) ++ trace w).
Proof.
  revert w. induction hs as [|h hs IH]; intros [hp aw es ex tr]; simpl.
  - done.
  - rewrite IH. unfold posted.
    destruct h as [id|tk|a]; simpl; try (by rewrite <- app_assoc).
    unfold post; simpl. destruct (hp !! a) as [q|] eqn:E; simpl;
      rewrite <- !app_assoc; simpl; done.
Qed.

Lemma posted_lookup hs : forall (h : gmap addr (list task)) a q,
  h !! a = Some q ->
  exists m, posted hs h !! a = Some (q ++ repeat StoreExited m).
Proof.
  induction hs as [|hd hs IH]; intros h a q H; simpl.
  - exists 0. by rewrite app_nil_r.
  - destruct hd as [id|tk|b]; try (by apply IH).
    destruct (h !! b) as [qb|] eqn:E; [|by apply IH].
    destruct (decide (b = a)) as [->|Hne].
    + assert (qb = q) as -> by congruence.
      destruct (IH (<[a := q ++ [StoreExited]]> h) a (q ++ [StoreExited]))
        as [m Hm]; [by rewrite lookup_insert_eq|].
      exists (S m). rewrite Hm. by rewrite <- app_assoc.
    + apply IH. by rewrite lookup_insert_ne.
Qed.

Lemma posted_app hs1 hs2 h : posted (hs1 ++ hs2) h = posted hs2 (posted hs1 h).
Proof. unfold posted. by rewrite fold_left_app. Qed.

Lemma posted_hook hs a (h : gmap addr (list task)) q :
  h !! a = Some q ->
  exists m, posted (hs ++ [PostExited a]) h !! a
            = Some (q ++ repeat StoreExited (S m)).
Proof.
  intros H. rewrite posted_app.
  destruct (posted_lookup hs h a q H) as [m Hm].
  exists m. simpl. rewrite Hm. rewrite lookup_insert_eq.
  f_equal. rewrite <- app_assoc. f_equal.
  change (repeat StoreExited m ++ repeat StoreExited 1 = repeat StoreExited (S m)).
  rewrite <- repeat_app. f_equal. lia.
Qed.

Lemma fire_eq pw w :
  fire pw w =
  World (posted (pw_handlers pw) (heap w)) None (pw_code pw) (exited w)
        (rev (handler_events (pw_code pw) (pw_ec pw) (pw_handlers pw))
           ++ trace w).
Proof. unfold fire. by rewrite fold_call_handler. Qed.

Lemma poll_waiting a w q k code ec hs :
  heap w !! a = Some q ->
  await w = Some (Pending a (Some (S k)) code ec hs) ->
  poll a w =
  World (<[a := []]> (heap w)) (Some (Pending a (Some k) code ec hs))
        (exit_status w) (exited w || existsb is_store q)
        (rev (map task_event q) ++ EvPoll a :: trace w).
Proof.
  intros Hq Ha. unfold poll, deliver. simpl. rewrite Ha. simpl.
  rewrite Nat.eqb_refl. by rewrite (run_ready_live a q).
Qed.

Lemma poll_never a w q code ec hs :
  heap w !! a = Some q ->
  await w = Some (Pending a None code ec hs) ->
  poll a w =
  World (<[a := []]> (heap w)) (Some (Pending a None code ec hs))
        (exit_status w) (exited w || existsb is_store q)
        (rev (map task_event q) ++ EvPoll a :: trace w).
Proof.
  intros Hq Ha. unfold poll, deliver. simpl. rewrite Ha. simpl.
  rewrite Nat.eqb_refl. rewrite (run_ready_live a q); [|done].
  simpl. by rewrite Ha.
Qed.

Lemma poll_fire a w q' code ec hs :
  posted hs (heap w) !! a = Some q' ->
  await w = Some (Pending a (Some 0) code ec hs) ->
  poll a w =
  World (<[a := []]> (posted hs (heap w))) None code
        (exited w || existsb is_store q')
        (rev (map task_event q') ++ rev (handler_events code ec hs)
           ++ EvPoll a :: trace w).
Proof.
  intros Hq Ha. unfold poll, deliver. simpl. rewrite Ha. simpl.
  rewrite Nat.eqb_refl. rewrite fire_eq. simpl.
  by rewrite (run_ready_live a q').
Qed.

(** *** What no scheduler operation does *)

Lemma filter_task_events (f : event -> bool) q :
  (forall t, f (task_event t) = false) ->
  List.filter f (rev (map task_event q)) = [].
Proof.
  intros Hf. induction q as [|t q IH]; simpl; [done|].
  rewrite List.filter_app, IH. simpl. by rewrite Hf.
Qed.

Lemma handler_events_cons code ec h hs :
  handler_events code ec (h :: hs) =
  (EvOnExit h code ec ::
     match h with PostExited a => [EvPost a StoreExited] | _ => [] end)
    ++ handler_events code ec hs.
Proof. done. Qed.

Lemma filter_handler_events (f : event -> bool) code ec hs :
  (forall h, f (EvOnExit h code ec) = false) ->
  (forall a t, f (EvPost a t) = false) ->
  List.filter f (rev (handler_events code ec hs)) = [].
Proof.
  intros H1 H2. induction hs as [|h hs IH]; [done|].
  rewrite handler_events_cons, rev_app_distr, List.filter_app, IH.
  destruct h; simpl; by rewrite ?H1, ?H2.
Qed.

Lemma In_task_events_store q :
  In EvStore (rev (map task_event q)) -> existsb is_store q = true.
Proof.
  rewrite <- in_rev, in_map_iff. intros [t [Ht Hin]].
  apply existsb_exists. exists t. split; [done|]. by destruct t.
Qed.

Lemma store_task_events q :
  existsb is_store q = true -> In EvStore (rev (map task_event q)).
Proof.
  intros H. apply existsb_exists in H as [t [Hin Ht]].
  rewrite <- in_rev, in_map_iff. exists t. split; [|done]. by destruct t.
Qed.

Lemma In_handler_events_store code ec hs :
  ~ In EvStore (rev (handler_events code ec hs)).
Proof.
  rewrite <- in_rev. unfold handler_events. rewrite in_flat_map.
  intros [h [_ [H|H]]]; [done|]. destruct h; simpl in H; intuition congruence.
Qed.

Lemma creations_run_ready a w : creations (run_ready a w) = creations w.
Proof.
  unfold run_ready. destruct (heap w !! a) as [q|]; [|done].
  rewrite fold_run_task. unfold creations; simpl.
  rewrite List.filter_app, filter_task_events; [done|by intros []].
Qed.

Lemma creations_fire pw w : creations (fire pw w) = creations w.
Proof.
  rewrite fire_eq. unfold creations; simpl.
  by rewrite List.filter_app, filter_handler_events.
Qed.

Lemma creations_deliver a w : creations (deliver a w) = creations w.
Proof.
  unfold deliver. destruct (await w) as [pw|]; [|done].
  destruct (Nat.eqb _ _); [|done].
  destruct (pw_delay pw) as [[|k]|]; try done. apply creations_fire.
Qed.

Lemma creations_poll a w : creations (poll a w) = creations w.
Proof. unfold poll. by rewrite creations_run_ready, creations_deliver. Qed.

Lemma creations_poll_loop fuel a : forall w w',
  poll_loop fuel a w = Some w' -> creations w' = creations w.
Proof.
  induction fuel as [|f IH]; intros w w'; simpl;
    destruct (exited w); intros H; try congruence.
  by rewrite (IH _ _ H), creations_poll.
Qed.

Lemma creations_run a w w' : run a w = Some w' -> creations w' = creations w.
Proof.
  unfold run.
  assert (creations (run_ready a (log (EvRun a) w)) = creations w) as E
    by (by rewrite creations_run_ready).
  destruct (await _) as [pw|]; [|congruence].
  destruct (Nat.eqb _ _); [|congruence].
  destruct (pw_delay pw); [|done].
  intros [= <-]. by rewrite creations_run_ready, creations_fire.
Qed.

Lemma creations_child_ctor args w :
  creations (snd (child_ctor args w)) = S (creations w).
Proof. done. Qed.

Lemma child_ctor_creations args w c w1 :
  child_ctor args w = (c, w1) -> creations w1 = S (creations w).
Proof. by intros [= <- <-]. Qed.

Lemma creations_wait c w w' : wait c w = Some w' -> creations w' = creations w.
Proof. unfold wait. destruct (p_delay c); [|done]. by intros [= <-]. Qed.

Lemma exited_run_ready a w : exited w = true -> exited (run_ready a w) = true.
Proof.
  intros H. unfold run_ready. destruct (heap w !! a); [|done].
  rewrite fold_run_task. simpl. by rewrite H.
Qed.

Lemma exited_deliver a w : exited (deliver a w) = exited w.
Proof.
  unfold deliver. destruct (await w) as [pw|]; [|done].
  destruct (Nat.eqb _ _); [|done].
  destruct (pw_delay pw) as [[|k]|]; try done. by rewrite fire_eq.
Qed.

Lemma exited_poll a w : exited w = true -> exited (poll a w) = true.
Proof.
  intros H. unfold poll. apply exited_run_ready. by rewrite exited_deliver.
Qed.

Lemma poll_loop_iter fuel a : forall w w',
  poll_loop fuel a w = Some w' ->
  exists k, k <= fuel /\ w' = Nat.iter k (poll a) w /\ exited w' = true /\
            forall j, j < k -> exited (Nat.iter j (poll a) w) = false.
Proof.
  induction fuel as [|f IH]; intros w w'; simpl;
    destruct (exited w) eqn:E; intros H; try congruence.
  - exists 0. injection H as <-. repeat split; [lia|done|lia].
  - exists 0. injection H as <-. repeat split; [lia|done|lia].
  - destruct (IH _ _ H) as [k [Hk [-> [Hex Hlt]]]].
    exists (S k). rewrite Nat.iter_succ_r. repeat split; [lia|done|].
    intros [|j] Hj; [done|]. rewrite Nat.iter_succ_r. apply Hlt. lia.
Qed.

(** *** Classification of extended packs *)

Lemma has_io_service_get args :
  has_io_service args = true <-> is_Some (get_io_service_var args).
Proof.
  induction args as [|o args IH]; simpl.
  - split; [done|]. by intros [? ?].
  - destruct o; simpl; try exact IH. split; eauto.
Qed.

Lemma get_io_service_var_app args l a :
  get_io_service_var args = Some a -> get_io_service_var (args ++ l) = Some a.
Proof. induction args as [|o args IH]; [done|]. destruct o; simpl; auto. Qed.

Lemma on_exit_handlers_app args l :
  on_exit_handlers (args ++ l) = on_exit_handlers args ++ on_exit_handlers l.
Proof.
  induction args as [|o args IH]; [done|]. destruct o; simpl; by rewrite ?IH.
Qed.

Lemma needs_io_service_hook args h :
  needs_io_service (args ++ [OnExit h]) = true.
Proof.
  unfold needs_io_service. rewrite existsb_app. simpl. by rewrite orb_true_r.
Qed.

(** *** The polling loop *)

Lemma poll_loop_exited fuel a w : exited w = true -> poll_loop fuel a w = Some w.
Proof. intros H. destruct fuel; simpl; by rewrite H. Qed.

Lemma rev_handler_events_hook code ec hs a :
  rev (handler_events code ec (hs ++ [PostExited a])) =
  EvPost a StoreExited :: EvOnExit (PostExited a) code ec
    :: rev (handler_events code ec hs).
Proof.
  unfold handler_events. rewrite flat_map_app, rev_app_distr. done.
Qed.

Lemma poll_loop_exits a code ec hs n : forall fuel w q,
  heap w !! a = Some q ->
  existsb is_store q = false ->
  exited w = false ->
  await w = Some (Pending a (Some n) code ec (hs ++ [PostExited a])) ->
  n < fuel ->
  exists w' new,
    poll_loop fuel a w = Some w' /\ exited w' = true /\
    exit_status w' = code /\ await w' = None /\ heap w' !! a = Some [] /\
    trace w' = new ++ trace w /\ hook_before_store a code ec new /\
    length (List.filter (is_poll a) new) = S n.
Proof.
  induction n as [|k IH]; intros fuel w q Hq Hs Hex Ha Hf;
    (destruct fuel as [|f]; [lia|]); simpl; rewrite Hex.
  - destruct (posted_hook hs a (heap w) q Hq) as [m Hm].
    rewrite (poll_fire a w _ code ec _ Hm Ha).
    assert (existsb is_store (q ++ repeat StoreExited (S m)) = true) as Hst.
    { rewrite existsb_app. simpl. by rewrite orb_true_r. }
    rewrite Hst, Hex. simpl.
    eexists _, (rev (map task_event (q ++ repeat StoreExited (S m)))
                  ++ rev (handler_events code ec (hs ++ [PostExited a]))
                  ++ [EvPoll a]).
    split; [by apply poll_loop_exited|]. simpl.
    split; [done|]. split; [done|]. split; [done|].
    split; [by rewrite lookup_insert_eq|].
    split; [by rewrite <- !app_assoc|].
    split.
    + exists (rev (map task_event (q ++ repeat StoreExited (S m)))
                ++ [EvPost a StoreExited]),
             (rev (handler_events code ec hs) ++ [EvPoll a]).
      split; [by rewrite rev_handler_events_hook, <- !app_assoc|].
      split.
      * apply in_or_app. left. by apply store_task_events.
      * intros [H|[H|[]]]%in_app_or; [|done].
        by apply In_handler_events_store in H.
    + rewrite !List.filter_app, filter_task_events, filter_handler_events;
        try done; [|by intros []].
      simpl. by rewrite Nat.eqb_refl.
  - rewrite (poll_waiting a w q k code ec _ Hq Ha). rewrite Hs, Hex. simpl.
    edestruct (IH f (World (<[a:=[]]> (heap w))
                  (Some (Pending a (Some k) code ec (hs ++ [PostExited a])))
                  (exit_status w) false
                  (rev (map task_event q) ++ EvPoll a :: trace w)) [])
      as [w' [new [Hl [H1 [H2 [H3 [H4 [H5 [H6 H7]]]]]]]]];
      [by simpl; rewrite lookup_insert_eq|done|done|done|lia|].
    exists w', (new ++ rev (map task_event q) ++ [EvPoll a]).
    split; [done|]. split; [done|]. split; [done|]. split; [done|].
    split.
    { rewrite H4. f_equal. }
    split; [rewrite H5; simpl; by rewrite <- !app_assoc|].
    split.
    + destruct H6 as [l1 [l2 [-> [Hin Hnin]]]].
      exists l1, (l2 ++ rev (map task_event q) ++ [EvPoll a]).
      split; [by rewrite <- app_assoc|]. split; [done|].
      intros [H|[H|[H|[]]]%in_app_or]%in_app_or; [done| |done].
      apply In_task_events_store in H. congruence.
    + rewrite !List.filter_app, !length_app, H7, filter_task_events;
        [|by intros []].
      simpl. rewrite Nat.eqb_refl. simpl. lia.
Qed.

Lemma poll_loop_short a code ec hs n : forall fuel w q,
  heap w !! a = Some q ->
  existsb is_store q = false ->
  exited w = false ->
  await w = Some (Pending a (Some n) code ec hs) ->
  fuel <= n ->
  poll_loop fuel a w = None.
Proof.
  induction n as [|k IH]; intros fuel w q Hq Hs Hex Ha Hf;
    destruct fuel as [|f]; simpl; rewrite Hex; try done; try lia.
  rewrite (poll_waiting a w q k code ec _ Hq Ha). rewrite Hs, Hex.
  apply (IH f _ []); simpl; try done; [by rewrite lookup_insert_eq|lia].
Qed.

Lemma poll_loop_never a code ec hs fuel : forall w q,
  heap w !! a = Some q ->
  existsb is_store q = false ->
  exited w = false ->
  await w = Some (Pending a None code ec hs) ->
  poll_loop fuel a w = None.
Proof.
  induction fuel as [|f IH]; intros w q Hq Hs Hex Ha; simpl; rewrite Hex;
    [done|].
  rewrite (poll_never a w q code ec _ Hq Ha). rewrite Hs, Hex.
  apply (IH _ []); simpl; try done. by rewrite lookup_insert_eq.
Qed.

(** *** The first overload: the supplied io_service is polled *)

Lemma caller_owned_live a w :
  caller_owned a w = true ->
  exists q, heap w !! a = Some q /\ existsb is_store q = false.
Proof.
  unfold caller_owned. destruct (heap w !! a) as [q|]; [|done].
  intros H. exists q. split; [done|]. by destruct (existsb is_store q).
Qed.

Lemma system_impl_tt_invalid fuel args w a :
  get_io_service_var args = Some a ->
  p_valid (spawn (args ++ [OnExit (PostExited a)])) = false ->
  system_impl_tt fuel args w =
  Some ((-1)%Z, World (heap w) None still_active false
                      (EvCreate (args ++ [OnExit (PostExited a)]) :: trace w)).
Proof.
  intros Hg Hv. unfold system_impl_tt. rewrite Hg. unfold child_ctor, valid.
  rewrite Hv. done.
Qed.

Lemma system_impl_tt_loop fuel args w a :
  get_io_service_var args = Some a ->
  p_valid (spawn (args ++ [OnExit (PostExited a)])) = true ->
  let p := spawn (args ++ [OnExit (PostExited a)]) in
  system_impl_tt fuel args w =
  match poll_loop fuel a
          (World (heap w)
             (Some (Pending a (p_delay p) (p_code p) (p_ec p)
                            (on_exit_handlers args ++ [PostExited a])))
             still_active false
             (EvCreate (args ++ [OnExit (PostExited a)]) :: trace w)) with
  | Some w' => Some (exit_status w', w')
  | None => None
  end.
Proof.
  intros Hg Hv p. unfold system_impl_tt. rewrite Hg. unfold child_ctor, valid.
  rewrite Hv, needs_io_service_hook, (get_io_service_var_app _ _ _ Hg),
    on_exit_handlers_app. done.
Qed.

Lemma system_impl_tt_returns fuel args w a n :
  get_io_service_var args = Some a ->
  caller_owned a w = true ->
  let p := spawn (args ++ [OnExit (PostExited a)]) in
  p_valid p = true ->
  p_delay p = Some n ->
  n < fuel ->
  exists w' new,
    system_impl_tt fuel args w = Some (p_code p, w') /\
    exited w' = true /\ exit_status w' = p_code p /\
    heap w' !! a = Some [] /\
    trace w' = new ++ EvCreate (args ++ [OnExit (PostExited a)]) :: trace w /\
    hook_before_store a (p_code p) (p_ec p) new /\
    length (List.filter (is_poll a) new) = S n.
Proof.
  intros Hg Hc p Hv Hd Hf.
  destruct (caller_owned_live a w Hc) as [q [Hq Hs]].
  rewrite (system_impl_tt_loop fuel args w a Hg Hv). fold p. rewrite Hd.
  destruct (poll_loop_exits a (p_code p) (p_ec p) (on_exit_handlers args) n
              fuel
              (World (heap w)
                 (Some (Pending a (Some n) (p_code p) (p_ec p)
                                (on_exit_handlers args ++ [PostExited a])))
                 still_active false
                 (EvCreate (args ++ [OnExit (PostExited a)]) :: trace w))
              q Hq Hs eq_refl eq_refl Hf)
    as [w' [new [Hl [H1 [H2 [H3 [H4 [H5 [H6 H7]]]]]]]]].
  exists w', new. rewrite Hl, H2. done.
Qed.

Lemma system_impl_tt_blocked fuel args w a :
  get_io_service_var args = Some a ->
  caller_owned a w = true ->
  let p := spawn (args ++ [OnExit (PostExited a)]) in
  p_valid p = true ->
  match p_delay p with Some n => fuel <= n | None => True end ->
  system_impl_tt fuel args w = None.
Proof.
  intros Hg Hc p Hv Hd.
  destruct (caller_owned_live a w Hc) as [q [Hq Hs]].
  rewrite (system_impl_tt_loop fuel args w a Hg Hv). fold p.
  destruct (p_delay p) as [n|].
  - by erewrite poll_loop_short.
  - by erewrite poll_loop_never.
Qed.

Lemma system_impl_tt_inv fuel args w a r w' :
  get_io_service_var args = Some a ->
  caller_owned a w = true ->
  let p := spawn (args ++ [OnExit (PostExited a)]) in
  p_valid p = true ->
  system_impl_tt fuel args w = Some (r, w') ->
  exists n new,
    p_delay p = Some n /\ n < fuel /\ r = p_code p /\
    exited w' = true /\ exit_status w' = p_code p /\
    heap w' !! a = Some [] /\
    trace w' = new ++ EvCreate (args ++ [OnExit (PostExited a)]) :: trace w /\
    hook_before_store a (p_code p) (p_ec p) new /\
    length (List.filter (is_poll a) new) = S n.
Proof.
  intros Hg Hc p Hv Hr.
  destruct (p_delay p) as [n|] eqn:Hd.
  - destruct (le_lt_dec fuel n) as [Hle|Hlt].
    + rewrite (system_impl_tt_blocked fuel args w a Hg Hc Hv) in Hr; [done|].
      fold p. by rewrite Hd.
    + destruct (system_impl_tt_returns fuel args w a n Hg Hc Hv Hd Hlt)
        as [w1 [new [Hl H]]].
      fold p in Hl. rewrite Hl in Hr. injection Hr as <- <-.
      exists n, new. tauto.
  - rewrite (system_impl_tt_blocked fuel args w a Hg Hc Hv) in Hr; [done|].
    fold p. by rewrite Hd.
Qed.

(** *** The second overload: an io_service of its own *)

Lemma fresh_ios_new w : heap w !! fresh (dom (heap w)) = None.
Proof. apply not_elem_of_dom. apply is_fresh. Qed.

Lemma system_impl_tf_invalid args w :
  let a := fresh (dom (heap w)) in
  p_valid (spawn (IoService a :: args)) = false ->
  system_impl_tf_scope a args (snd (io_service_ctor w)) =
    Some ((-1)%Z, World (<[a := []]> (heap w)) None still_active (exited w)
                        (EvCreate (IoService a :: args) :: EvIosCtor a
                           :: trace w)) /\
  system_impl_tf args w =
    Some ((-1)%Z, World (heap w) None still_active (exited w)
                        (EvIosDtor a :: EvCreate (IoService a :: args)
                           :: EvIosCtor a :: trace w)).
Proof.
  intros a Hv. unfold system_impl_tf, system_impl_tf_scope, io_service_ctor.
  fold a. unfold child_ctor, valid. rewrite Hv. simpl. split; [done|].
  unfold io_service_dtor, log, set_heap. simpl.
  rewrite delete_insert_id; [done|apply fresh_ios_new].
Qed.

Lemma run_fires a w q q' n code ec hs :
  heap w !! a = Some q ->
  await w = Some (Pending a (Some n) code ec hs) ->
  posted hs (<[a := []]> (heap w)) !! a = Some q' ->
  run a w =
  Some (World (<[a := []]> (posted hs (<[a := []]> (heap w)))) None code
              (exited w || existsb is_store q || existsb is_store q')
              (rev (map task_event q') ++ rev (handler_events code ec hs)
                 ++ rev (map task_event q) ++ EvRun a :: trace w)).
Proof.
  intros Hq Ha Hq'. unfold run.
  rewrite (run_ready_live a q); [|done]. simpl. rewrite Ha. simpl.
  rewrite Nat.eqb_refl, fire_eq. simpl.
  by rewrite (run_ready_live a q').
Qed.

Lemma system_impl_tf_returns args w n :
  needs_io_service args = true ->
  let a := fresh (dom (heap w)) in
  let p := spawn (IoService a :: args) in
  p_valid p = true ->
  p_delay p = Some n ->
  exists w1 mid,
    system_impl_tf_scope a args (snd (io_service_ctor w)) = Some (p_code p, w1)
    /\ system_impl_tf args w = Some (p_code p, io_service_dtor a w1)
    /\ idle a w1 /\ exit_status w1 = p_code p
    /\ trace w1 = mid ++ EvRun a :: EvCreate (IoService a :: args)
                     :: EvIosCtor a :: trace w
    /\ List.filter is_waiting mid = [].
Proof.
  intros Hn a p Hv Hd.
  destruct (posted_lookup (on_exit_handlers args)
              (<[a:=[]]> (<[a:=[]]> (heap w))) a [])
    as [m Hm]; [by rewrite lookup_insert_eq|].
  unfold system_impl_tf, system_impl_tf_scope, io_service_ctor.
  fold a. unfold child_ctor, valid. fold p. rewrite Hv. simpl.
  rewrite Hn, Hd. simpl.
  erewrite (run_fires a _ [] _ n); [| |reflexivity|exact Hm];
    [|by simpl; rewrite lookup_insert_eq].
  simpl.
  eexists _, _. split; [reflexivity|]. split; [reflexivity|].
  split; [split; simpl; [by rewrite lookup_insert_eq|done]|].
  split; [done|]. simpl. split; [by rewrite app_assoc|].
  rewrite List.filter_app, filter_task_events, filter_handler_events;
    try done. by intros [].
Qed.

Lemma system_impl_tf_never args w :
  needs_io_service args = true ->
  let a := fresh (dom (heap w)) in
  let p := spawn (IoService a :: args) in
  p_valid p = true ->
  p_delay p = None ->
  system_impl_tf args w = None.
Proof.
  intros Hn a p Hv Hd.
  unfold system_impl_tf, system_impl_tf_scope, io_service_ctor.
  fold a. unfold child_ctor, valid. fold p. rewrite Hv. simpl.
  rewrite Hn. simpl. unfold run. simpl.
  rewrite (run_ready_live a []); [|by simpl; rewrite lookup_insert_eq].
  simpl. by rewrite Nat.eqb_refl, Hd.
Qed.

(** *** The blocking overloads *)

Lemma blocking_eq args w :
  needs_io_service args = false ->
  let p := spawn args in
  (let '(c, w) := child_ctor args w in
   if negb (valid c) then Some ((-1)%Z, w)
   else match wait c w with
        | Some w => Some (exit_code c w, w)
        | None => None
        end) =
  if negb (p_valid p) then
    Some ((-1)%Z, World (heap w) None still_active (exited w)
                        (EvCreate args :: trace w))
  else match p_delay p with
       | Some _ =>
           Some (p_code p, World (heap w) None (p_code p) (exited w)
                                 (EvWait :: EvCreate args :: trace w))
       | None => None
       end.
Proof.
  intros Hn p. unfold child_ctor, valid, wait. fold p. rewrite Hn, andb_false_r.
  destruct (p_valid p); simpl; [|done]. by destruct (p_delay p).
Qed.

(** *** Facts that hold for every overload *)

Lemma system_eq fuel args w :
  system fuel args w =
  system_impl (needs_io_service args) (has_io_service args) fuel args w.
Proof. done. Qed.

Lemma creations_system fuel args w r w' :
  system fuel args w = Some (r, w') -> creations w' = S (creations w).
Proof.
  rewrite system_eq. unfold system_impl.
  destruct (needs_io_service args), (has_io_service args).
  - unfold system_impl_tt. destruct (get_io_service_var args) as [a|]; [|done].
    destruct (child_ctor _ _) as [c w1] eqn:E.
    apply child_ctor_creations in E as Hc; simpl in Hc.
    destruct (negb (valid c)); [by intros [= <- <-]|].
    destruct (poll_loop fuel a w1) as [w2|] eqn:El; [|done].
    intros [= <- <-]. by rewrite (creations_poll_loop _ _ _ _ El).
  - unfold system_impl_tf, system_impl_tf_scope, io_service_ctor.
    destruct (child_ctor _ _) as [c w1] eqn:E.
    apply child_ctor_creations in E as Hc; simpl in Hc.
    destruct (negb (valid c)); [by intros [= <- <-]|].
    destruct (run _ w1) as [w2|] eqn:El; [|done].
    intros [= <- <-]. unfold creations in *. simpl.
    fold (creations w2). by rewrite (creations_run _ _ _ El).
  - unfold system_impl_ft.
    destruct (child_ctor _ _) as [c w1] eqn:E.
    apply child_ctor_creations in E as Hc; simpl in Hc.
    destruct (negb (valid c)); [by intros [= <- <-]|].
    destruct (wait c w1) as [w2|] eqn:El; [|done].
    intros [= <- <-]. by rewrite (creations_wait _ _ _ El).
  - unfold system_impl_ff.
    destruct (child_ctor _ _) as [c w1] eqn:E.
    apply child_ctor_creations in E as Hc; simpl in Hc.
    destruct (negb (valid c)); [by intros [= <- <-]|].
    destruct (wait c w1) as [w2|] eqn:El; [|done].
    intros [= <- <-]. by rewrite (creations_wait _ _ _ El).
Qed.

Lemma system_invalid fuel args w :
  p_valid (spawn (child_args args w)) = false ->
  exists w' new,
    system fuel args w = Some ((-1)%Z, w') /\ trace w' = new ++ trace w /\
    List.filter is_waiting new = [] /\ heap w' = heap w.
Proof.
  rewrite system_eq. unfold child_args, system_impl.
  destruct (needs_io_service args) eqn:Hn, (has_io_service args) eqn:Hh.
  - destruct (proj1 (has_io_service_get args) Hh) as [a Hg]. rewrite Hg.
    intros Hv. rewrite (system_impl_tt_invalid fuel args w a Hg Hv).
    by eexists _, [_].
  - intros Hv. rewrite (proj2 (system_impl_tf_invalid args w Hv)).
    by eexists _, [_; _; _].
  - intros Hv. unfold system_impl_ft. rewrite (blocking_eq args w Hn), Hv.
    by eexists _, [_].
  - intros Hv. unfold system_impl_ff. rewrite blocking_eq, Hv.
    + by eexists _, [_].
    + unfold needs_io_service in *. rewrite existsb_app, Hn.
      by destruct BOOST_POSIX_API.
Qed.

Lemma needs_io_service_sig_dfl args :
  needs_io_service (args ++ (if BOOST_POSIX_API then [SigDfl] else []))
  = needs_io_service args.
Proof.
  unfold needs_io_service. rewrite existsb_app.
  destruct BOOST_POSIX_API; simpl; by rewrite orb_false_r.
Qed.

Lemma system_valid_inv fuel args w r w' :
  well_formed args w = true ->
  let p := spawn (child_args args w) in
  p_valid p = true ->
  system fuel args w = Some (r, w') ->
  r = p_code p /\ exit_status w' = p_code p /\ is_Some (p_delay p).
Proof.
  cbv zeta. rewrite system_eq. unfold well_formed, child_args, system_impl.
  destruct (needs_io_service args) eqn:Hn, (has_io_service args) eqn:Hh.
  - destruct (proj1 (has_io_service_get args) Hh) as [a Hg]. rewrite Hg.
    intros Hc Hv Hr.
    destruct (system_impl_tt_inv fuel args w a r w' Hg Hc Hv Hr)
      as [n [new [Hd [_ [-> [_ [He _]]]]]]].
    rewrite Hd. eauto.
  - intros _ Hv Hr.
    destruct (p_delay (spawn (IoService (fresh (dom (heap w))) :: args)))
      as [n|] eqn:Hd.
    + destruct (system_impl_tf_returns args w n Hn Hv Hd)
        as [w1 [mid [_ [Hs [_ [He _]]]]]].
      rewrite Hs in Hr. injection Hr as <- <-. eauto.
    + by rewrite (system_impl_tf_never args w Hn Hv Hd) in Hr.
  - intros _ Hv. unfold system_impl_ft. rewrite (blocking_eq args w Hn).
    cbv zeta. rewrite Hv. simpl. destruct (p_delay (spawn args)); [|done].
    intros [= <- <-]. eauto.
  - intros _ Hv. unfold system_impl_ff.
    rewrite blocking_eq; [|by rewrite needs_io_service_sig_dfl].
    cbv zeta. rewrite Hv. simpl. destruct (p_delay (spawn _)); [|done].
    intros [= <- <-]. eauto.
Qed.

Lemma system_valid_returns fuel args w n :
  well_formed args w = true ->
  let p := spawn (child_args args w) in
  p_valid p = true ->
  p_delay p = Some n ->
  n < fuel ->
  exists w', system fuel args w = Some (p_code p, w').
Proof.
  cbv zeta. rewrite system_eq. unfold well_formed, child_args, system_impl.
  destruct (needs_io_service args) eqn:Hn, (has_io_service args) eqn:Hh.
  - destruct (proj1 (has_io_service_get args) Hh) as [a Hg]. rewrite Hg.
    intros Hc Hv Hd Hf.
    destruct (system_impl_tt_returns fuel args w a n Hg Hc Hv Hd Hf)
      as [w' [new [Hs _]]]. eauto.
  - intros _ Hv Hd _.
    destruct (system_impl_tf_returns args w n Hn Hv Hd)
      as [w1 [mid [_ [Hs _]]]]. eauto.
  - intros _ Hv Hd _. unfold system_impl_ft. rewrite (blocking_eq args w Hn).
    cbv zeta. rewrite Hv, Hd. simpl. eauto.
  - intros _ Hv Hd _. unfold system_impl_ff.
    rewrite blocking_eq; [|by rewrite needs_io_service_sig_dfl].
    cbv zeta. rewrite Hv, Hd. simpl. eauto.
Qed.

(** ** The claims about the dispatch and the four overloads *)

(** C1: [system] dispatches on the pair (needs_io_service, has_io_service)
    to exactly one of the four strategies, following the table of section
    4.2: true/true is drive-supplied, true/false own-and-run, false/true
    blocking-with-supplied, false/false blocking-plain.  The selection is a
    total function of the pair, different pairs select different strategies,
    and a call that returns has created exactly one child process. *)
Theorem system_dispatch fuel args w :
  system fuel args w =
    run_strategy
      (StrategySelector (needs_io_service args) (has_io_service args))
      fuel args w
  /\ (StrategySelector true true = DriveSupplied
      /\ StrategySelector true false = OwnAndRun
      /\ StrategySelector false true = BlockingWithSupplied
      /\ StrategySelector false false = BlockingPlain)
  /\ (forall n h n' h',
        StrategySelector n h = StrategySelector n' h' -> (n, h) = (n', h'))
  /\ (forall args',
        needs_io_service args' = needs_io_service args ->
        has_io_service args' = has_io_service args ->
        system fuel args' w =
          run_strategy
            (StrategySelector (needs_io_service args) (has_io_service args))
            fuel args' w)
  /\ (forall r w',
        system fuel args w = Some (r, w') -> creations w' = S (creations w)).
Proof.
  split.
  { rewrite system_eq. by destruct (needs_io_service args), (has_io_service args). }
  split; [done|].
  split; [by intros [] [] [] []|].
  split.
  { intros args' <- <-. rewrite system_eq.
    by destruct (needs_io_service args'), (has_io_service args'). }
  intros r w'. apply creations_system.
Qed.

(** C2: in each of the four strategies, when the creation of the child
    fails (the validity check is negative) [system] returns -1 at once: no
    wait, poll or run call is made on any process or scheduler and the
    io_services of the caller are as before.  When it succeeds, a call that
    returns gives the exit status observed for the child, which is the code
    the process exited with, and the call does return once the child has
    exited. *)
Theorem creation_failure_returns_sentinel fuel args w :
  let p := spawn (child_args args w) in
  (p_valid p = false ->
   exists w' new,
     system fuel args w = Some ((-1)%Z, w') /\ trace w' = new ++ trace w /\
     List.filter is_waiting new = [] /\ heap w' = heap w)
  /\ (p_valid p = true ->
      well_formed args w = true ->
      (forall r w',
         system fuel args w = Some (r, w') ->
         r = exit_status w' /\ r = p_code p)
      /\ (forall n, p_delay p = Some n -> n < fuel ->
           exists w', system fuel args w = Some (p_code p, w'))).
Proof.
  cbv zeta. split; [apply system_invalid|].
  intros Hv Hw. split.
  - intros r w' Hr.
    destruct (system_valid_inv fuel args w r w' Hw Hv Hr) as [-> [-> _]]. done.
  - intros n Hd Hf. by apply (system_valid_returns fuel args w n).
Qed.

(** C3: in the drive-supplied strategy the child is created with the
    completion hook that posts the store of the exit flag; the supplied
    io_service is then polled until the flag is set and the exit status is
    read and returned.  In the events of a call that returns the hook ran
    before the flag was stored, the flag was not stored before, and poll was
    called once more than the number of rounds the exit took to be reported,
    hence at least once.  The call returns once the child has exited. *)
Theorem drive_supplied_polls_until_exited fuel args w a :
  needs_io_service args = true ->
  has_io_service args = true ->
  get_io_service_var args = Some a ->
  caller_owned a w = true ->
  let hooked := args ++ [OnExit (PostExited a)] in
  let p := spawn hooked in
  p_valid p = true ->
  system fuel args w = system_impl_tt fuel args w
  /\ (forall r w',
        system fuel args w = Some (r, w') ->
        exists n new,
          p_delay p = Some n /\ r = exit_status w' /\ exited w' = true /\
          trace w' = new ++ EvCreate hooked :: trace w /\
          hook_before_store a (p_code p) (p_ec p) new /\
          length (List.filter (is_poll a) new) = S n /\
          In (EvPoll a) new)
  /\ (forall n, p_delay p = Some n -> n < fuel ->
         exists w', system fuel args w = Some (p_code p, w')).
Proof.
  intros Hn Hh Hg Hc hooked p Hv.
  assert (system fuel args w = system_impl_tt fuel args w) as Hs.
  { rewrite system_eq. by rewrite Hn, Hh. }
  split; [done|]. rewrite Hs. split.
  - intros r w' Hr.
    destruct (system_impl_tt_inv fuel args w a r w' Hg Hc Hv Hr)
      as [n [new [Hd [_ [-> [He [Hst [_ [Ht [Hb Hp]]]]]]]]]].
    exists n, new. repeat (split; [done|]).
    destruct (List.filter (is_poll a) new) as [|e l] eqn:E; [done|].
    assert (In e (List.filter (is_poll a) new)) as Hin by (rewrite E; by left).
    apply List.filter_In in Hin as [Hin He'].
    destruct e; try done. apply Nat.eqb_eq in He'. by subst.
  - intros n Hd Hf.
    destruct (system_impl_tt_returns fuel args w a n Hg Hc Hv Hd Hf)
      as [w' [new [Hr _]]]. eauto.
Qed.

(** C4: in the own-and-run strategy a new io_service is constructed and
    handed to the child constructor; when the child is valid the io_service
    is run before the exit code is returned.  On both returns, the failure
    of the creation included, the io_service is destroyed as the last step,
    it had no ready handler and no outstanding wait when it was destroyed,
    and it is not live afterwards.  The call returns when the creation fails
    or the child exits. *)
Theorem own_and_run_scheduler_scoped fuel args w :
  needs_io_service args = true ->
  has_io_service args = false ->
  let ios := fresh (dom (heap w)) in
  let p := spawn (IoService ios :: args) in
  heap w !! ios = None
  /\ (forall r w',
        system fuel args w = Some (r, w') ->
        exists w1 mid,
          system_impl_tf_scope ios args (snd (io_service_ctor w)) = Some (r, w1)
          /\ w' = io_service_dtor ios w1
          /\ idle ios w1
          /\ heap w' !! ios = None
          /\ trace w' = EvIosDtor ios :: mid ++ EvCreate (IoService ios :: args)
                           :: EvIosCtor ios :: trace w
          /\ if p_valid p
             then r = p_code p /\ exists mid', mid = mid' ++ [EvRun ios]
             else r = (-1)%Z /\ mid = [])
  /\ (p_valid p = false \/ is_Some (p_delay p) ->
      is_Some (system fuel args w)).
Proof.
  intros Hn Hh ios p.
  assert (system fuel args w = system_impl_tf args w) as Hs.
  { rewrite system_eq. by rewrite Hn, Hh. }
  split; [apply fresh_ios_new|]. rewrite Hs.
  destruct (p_valid p) eqn:Hv.
  - destruct (p_delay p) as [n|] eqn:Hd.
    + destruct (system_impl_tf_returns args w n Hn Hv Hd)
        as [w1 [mid [Hsc [Hr [Hi [He [Ht _]]]]]]].
      fold ios in Hsc, Hr, Hi, Ht. fold p in Hsc, Hr.
      split; [|by rewrite Hr; eauto].
      intros r w' Hr'. rewrite Hr in Hr'. injection Hr' as <- <-.
      exists w1, (mid ++ [EvRun ios]).
      split; [done|]. split; [done|]. split; [done|].
      split; [by simpl; rewrite lookup_delete_eq|].
      split; [by simpl; rewrite Ht, <- app_assoc|]. eauto.
    + rewrite (system_impl_tf_never args w Hn Hv Hd).
      split; [done|]. intros [?|[? ?]]; done.
  - destruct (system_impl_tf_invalid args w Hv) as [Hsc Hr].
    fold ios in Hsc, Hr.
    split; [|by rewrite Hr; eauto].
    intros r w' Hr'. rewrite Hr in Hr'. injection Hr' as <- <-.
    eexists _, []. split; [exact Hsc|].
    split.
    { unfold io_service_dtor, log, set_heap. simpl.
      rewrite delete_insert_id; [done|apply fresh_ios_new]. }
    split; [by split; simpl; [rewrite lookup_insert_eq|]|].
    split; [exact (fresh_ios_new w)|]. done.
Qed.

(** C5: in the blocking-with-supplied strategy [system] waits with the
    blocking wait of the process: the io_services of the caller are
    unchanged by the call and no poll, run or post is made on any of them;
    for a valid child the events of the call are the creation and the wait,
    and the exit code of the child is returned, as soon as it exits. *)
Theorem blocking_with_supplied_untouched fuel args w :
  needs_io_service args = false ->
  has_io_service args = true ->
  let p := spawn args in
  (forall r w',
     system fuel args w = Some (r, w') ->
     heap w' = heap w
     /\ exists new,
         trace w' = new ++ trace w
         /\ List.filter is_scheduler_use new = []
         /\ (p_valid p = true ->
             r = p_code p /\ new = [EvWait; EvCreate args]))
  /\ (p_valid p = true -> is_Some (p_delay p) ->
      exists w', system fuel args w = Some (p_code p, w')).
Proof.
  intros Hn Hh p. rewrite system_eq, Hn, Hh. unfold system_impl, system_impl_ft.
  rewrite (blocking_eq args w Hn). fold p.
  destruct (p_valid p); simpl.
  - destruct (p_delay p) as [n|].
    + split; [|eauto]. intros r w' [= <- <-]. split; [done|].
      by exists [EvWait; EvCreate args].
    + split; [done|]. by intros _ [? ?].
  - split; [|done]. intros r w' [= <- <-]. split; [done|].
    by exists [EvCreate args].
Qed.

(** C6: in the blocking-plain strategy the child is created from the
    arguments followed, where BOOST_POSIX_API is defined, by the default
    signal disposition [posix::sig.dfl()]; for a valid child the process's
    blocking wait is called directly and the exit code is returned, as soon
    as the child exits. *)
Theorem blocking_plain_waits fuel args w :
  needs_io_service args = false ->
  has_io_service args = false ->
  let dfl := args ++ (if BOOST_POSIX_API then [SigDfl] else []) in
  let p := spawn dfl in
  p_valid p = true ->
  (forall r w',
     system fuel args w = Some (r, w') ->
     r = p_code p /\ r = exit_status w' /\ heap w' = heap w
     /\ trace w' = EvWait :: EvCreate dfl :: trace w)
  /\ (is_Some (p_delay p) ->
      exists w', system fuel args w = Some (p_code p, w'))
  /\ (BOOST_POSIX_API = true -> dfl = args ++ [SigDfl]).
Proof.
  intros Hn Hh dfl p Hv. rewrite system_eq, Hn, Hh.
  unfold system_impl, system_impl_ff. fold dfl.
  rewrite blocking_eq; [|by unfold dfl; rewrite needs_io_service_sig_dfl].
  fold p. rewrite Hv. simpl.
  split; [|split].
  - destruct (p_delay p); [|done]. by intros r w' [= <- <-].
  - intros [n Hd]. rewrite Hd. eauto.
  - unfold dfl. by intros ->.
Qed.

Lemma iter_poll_waiting a code ec hs n : forall j w q,
  j <= n ->
  heap w !! a = Some q ->
  existsb is_store q = false ->
  exited w = false ->
  await w = Some (Pending a (Some n) code ec hs) ->
  let v := Nat.iter j (poll a) w in
  exited v = false
  /\ await v = Some (Pending a (Some (n - j)) code ec hs)
  /\ exists q', heap v !! a = Some q' /\ existsb is_store q' = false.
Proof.
  induction j as [|j IH]; intros w q Hj Hq Hs Hex Ha; cbv zeta.
  - simpl. rewrite Nat.sub_0_r. eauto.
  - destruct (IH w q) as [Hex' [Ha' [q' [Hq' Hs']]]]; try done; [lia|].
    simpl. replace (n - j) with (S (n - S j)) in Ha' by lia.
    rewrite (poll_waiting a _ q' _ code ec hs Hq' Ha'). simpl.
    rewrite Hex', Hs'. split; [done|]. split; [done|].
    exists []. by rewrite lookup_insert_eq.
Qed.

Lemma poll_loop_reaches a k : forall fuel w,
  k <= fuel ->
  (forall j, j < k -> exited (Nat.iter j (poll a) w) = false) ->
  exited (Nat.iter k (poll a) w) = true ->
  poll_loop fuel a w = Some (Nat.iter k (poll a) w).
Proof.
  induction k as [|k IH]; intros fuel w Hk Hlt Hex.
  - by apply poll_loop_exited.
  - destruct fuel as [|f]; [lia|]. simpl.
    pose proof (Hlt 0 ltac:(lia)) as H0. simpl in H0. rewrite H0.
    rewrite Nat.iter_succ_r in Hex.
    change (poll a (Nat.iter k (poll a) w)) with (Nat.iter (S k) (poll a) w).
    rewrite Nat.iter_succ_r.
    apply IH; [lia| |done].
    intros j Hj. rewrite <- Nat.iter_succ_r. apply Hlt. lia.
Qed.

(** C9: the completion hook of the drive-supplied strategy leaves the exit
    flag as it is and posts the store of the flag to the supplied
    io_service.  The flag is false when the child has been created; a call
    that returns went through [k >= 1] polls, the flag was false before each
    of them and true after the last, so it was set inside a poll call; and a
    poll never resets the flag.  When the exit of the child is reported in
    round [n], the call does return, after exactly [n + 1] polls: the flag
    is false up to the last poll and inside the last poll the hook runs and
    then the posted store sets the flag. *)
Theorem exit_flag_set_inside_poll fuel args w a :
  needs_io_service args = true ->
  has_io_service args = true ->
  get_io_service_var args = Some a ->
  let hooked := args ++ [OnExit (PostExited a)] in
  let p := spawn hooked in
  p_valid p = true ->
  let w1 := snd (child_ctor hooked (set_exited false w)) in
  (forall code ec v,
     let v' := call_handler code ec v (PostExited a) in
     exited v' = exited v
     /\ trace v' = EvPost a StoreExited :: EvOnExit (PostExited a) code ec
                     :: trace v
     /\ forall q, heap v !! a = Some q ->
                  heap v' !! a = Some (q ++ [StoreExited]))
  /\ exited w1 = false
  /\ (forall r w',
        system fuel args w = Some (r, w') ->
        exists k,
          1 <= k /\ w' = Nat.iter k (poll a) w1 /\ exited w' = true /\
          forall j, j < k -> exited (Nat.iter j (poll a) w1) = false)
  /\ (forall v, exited v = true -> exited (poll a v) = true)
  /\ (forall j k, j <= k -> exited (Nat.iter j (poll a) w1) = true ->
                  exited (Nat.iter k (poll a) w1) = true)
  /\ (forall n,
        caller_owned a w = true -> p_delay p = Some n -> n < fuel ->
        let last := Nat.iter n (poll a) w1 in
        let w' := poll a last in
        system fuel args w = Some (p_code p, w')
        /\ (forall j, j <= n -> exited (Nat.iter j (poll a) w1) = false)
        /\ exited w' = true
        /\ exists l, trace w' = l ++ EvPoll a :: trace last
                     /\ hook_before_store a (p_code p) (p_ec p) l).
Proof.
  intros Hn Hh Hg hooked p Hv w1.
  assert (w1 = World (heap w)
                 (Some (Pending a (p_delay p) (p_code p) (p_ec p)
                          (on_exit_handlers args ++ [PostExited a])))
                 still_active false (EvCreate hooked :: trace w)) as Hw1.
  { unfold w1, child_ctor. fold p. rewrite Hv. unfold hooked.
    rewrite needs_io_service_hook, (get_io_service_var_app _ _ _ Hg),
      on_exit_handlers_app. done. }
  assert (system fuel args w =
          match poll_loop fuel a w1 with
          | Some w' => Some (exit_status w', w')
          | None => None
          end) as Hsys.
  { rewrite system_eq, Hn, Hh. unfold system_impl.
    rewrite (system_impl_tt_loop fuel args w a Hg Hv). cbv zeta.
    fold hooked. fold p. by rewrite <- Hw1. }
  split.
  { intros code ec v v'. unfold v', call_handler, post. simpl.
    split; [by destruct (heap v !! a)|].
    split; [by destruct (heap v !! a)|].
    intros q Hq. rewrite Hq. simpl. by rewrite lookup_insert_eq. }
  split; [done|].
  split.
  { intros r w'. rewrite Hsys.
    destruct (poll_loop fuel a w1) as [v'|] eqn:El; [|done].
    intros [= <- <-].
    destruct (poll_loop_iter fuel a w1 v' El) as [k [_ [-> [Hex Hlt]]]].
    exists k. split; [|done].
    destruct k; [|lia]. simpl in Hex. done. }
  split; [intros v; apply exited_poll|].
  split.
  { intros j k Hjk. induction Hjk as [|k Hjk IH]; [done|].
    intros H. simpl. apply exited_poll. by apply IH. }
  intros n Hc Hd Hf last w'.
  destruct (caller_owned_live a w Hc) as [q [Hq Hs]].
  assert (forall j, j <= n ->
            exited (Nat.iter j (poll a) w1) = false
            /\ await (Nat.iter j (poll a) w1)
               = Some (Pending a (Some (n - j)) (p_code p) (p_ec p)
                         (on_exit_handlers args ++ [PostExited a]))
            /\ exists q', heap (Nat.iter j (poll a) w1) !! a = Some q'
                          /\ existsb is_store q' = false) as Hwait.
  { intros j Hj.
    apply (iter_poll_waiting a (p_code p) (p_ec p) _ n j w1 q Hj);
      [by rewrite Hw1|exact Hs|by rewrite Hw1|].
    rewrite Hw1. simpl. by rewrite Hd. }
  destruct (Hwait n (le_n n)) as [Hexl [Hal [q' [Hq' Hs']]]].
  rewrite Nat.sub_diag in Hal. fold last in Hexl, Hal, Hq'.
  destruct (posted_hook (on_exit_handlers args) a (heap last) q' Hq')
    as [m Hm].
  assert (w' = World (<[a := []]> (posted (on_exit_handlers args
                                             ++ [PostExited a]) (heap last)))
                 None (p_code p)
                 (exited last
                  || existsb is_store (q' ++ repeat StoreExited (S m)))
                 (rev (map task_event (q' ++ repeat StoreExited (S m)))
                    ++ rev (handler_events (p_code p) (p_ec p)
                              (on_exit_handlers args ++ [PostExited a]))
                    ++ EvPoll a :: trace last)) as Hw'.
  { unfold w'. by apply poll_fire. }
  assert (exited w' = true) as Hex'.
  { rewrite Hw'. simpl. rewrite existsb_app. simpl. by rewrite !orb_true_r. }
  split.
  { rewrite Hsys.
    rewrite (poll_loop_reaches a (S n) fuel w1); [| lia | |exact Hex'].
    - change (Nat.iter (S n) (poll a) w1) with w'. cbn beta iota.
      by rewrite Hw'.
    - intros j Hj. apply (Hwait j). lia. }
  split; [intros j Hj; by apply (Hwait j)|].
  split; [done|].
  exists (rev (map task_event (q' ++ repeat StoreExited (S m)))
            ++ rev (handler_events (p_code p) (p_ec p)
                      (on_exit_handlers args ++ [PostExited a]))).
  split; [rewrite Hw'; simpl; by rewrite <- app_assoc|].
  exists (rev (map task_event (q' ++ repeat StoreExited (S m)))
            ++ [EvPost a StoreExited]),
         (rev (handler_events (p_code p) (p_ec p) (on_exit_handlers args))).
  split; [by rewrite rev_handler_events_hook, <- !app_assoc|].
  split.
  - apply in_or_app. left. apply store_task_events.
    rewrite existsb_app. simpl. by rewrite orb_true_r.
  - apply In_handler_events_store.
Qed.

(** C7 (amended): [system] returns -1 when the creation of the child fails,
    and returns the exit code of the child unchanged when it succeeds, as
    soon as the child has exited; the result therefore differs from the
    sentinel -1 exactly when that exit code is not -1, in particular for
    every exit code in 0..255. *)
Theorem exit_code_passed_through fuel args w :
  well_formed args w = true ->
  let p := spawn (child_args args w) in
  (p_valid p = false ->
   exists w', system fuel args w = Some ((-1)%Z, w'))
  /\ (p_valid p = true ->
      (forall n, p_delay p = Some n -> n < fuel ->
         exists w', system fuel args w = Some (p_code p, w'))
      /\ (forall r w',
            system fuel args w = Some (r, w') ->
            r = p_code p
            /\ (r <> (-1)%Z <-> p_code p <> (-1)%Z)
            /\ ((0 <= p_code p <= 255)%Z -> r <> (-1)%Z))).
Proof.
  intros Hw p. split.
  - intros Hv. destruct (system_invalid fuel args w Hv) as [w' [new [Hr _]]].
    eauto.
  - intros Hv. split.
    + intros n Hd Hf. by apply (system_valid_returns fuel args w n).
    + intros r w' Hr.
      destruct (system_valid_inv fuel args w r w' Hw Hv Hr) as [-> _].
      fold p. split; [done|]. split; [done|]. lia.
Qed.

(** ** Further properties of the overloads *)

(** *** The set of live io_services *)

Lemma dom_posted hs : forall h : gmap addr (list task),
  dom (posted hs h) = dom h.
Proof.
  induction hs as [|hd hs IH]; intros h; [done|]. simpl.
  destruct hd as [id|tk|b]; try apply IH.
  destruct (h !! b) as [q|] eqn:E; [|apply IH].
  rewrite IH. apply dom_insert_lookup_L. by rewrite E.
Qed.

Lemma dom_run_ready a w : dom (heap (run_ready a w)) = dom (heap w).
Proof.
  unfold run_ready. destruct (heap w !! a) as [q|] eqn:E; [|done].
  rewrite fold_run_task. simpl. apply dom_insert_lookup_L. by rewrite E.
Qed.

Lemma dom_fire pw w : dom (heap (fire pw w)) = dom (heap w).
Proof. rewrite fire_eq. simpl. apply dom_posted. Qed.

Lemma dom_deliver a w : dom (heap (deliver a w)) = dom (heap w).
Proof.
  unfold deliver. destruct (await w) as [pw|]; [|done].
  destruct (Nat.eqb _ _); [|done].
  destruct (pw_delay pw) as [[|k]|]; try done. apply dom_fire.
Qed.

Lemma dom_poll a w : dom (heap (poll a w)) = dom (heap w).
Proof. unfold poll. by rewrite dom_run_ready, dom_deliver. Qed.

Lemma dom_poll_loop fuel a : forall w w',
  poll_loop fuel a w = Some w' -> dom (heap w') = dom (heap w).
Proof.
  induction fuel as [|f IH]; intros w w'; simpl;
    destruct (exited w); intros H; try congruence.
  by rewrite (IH _ _ H), dom_poll.
Qed.

Lemma dom_run a w w' : run a w = Some w' -> dom (heap w') = dom (heap w).
Proof.
  unfold run.
  assert (dom (heap (run_ready a (log (EvRun a) w))) = dom (heap w)) as E
    by (by rewrite dom_run_ready).
  destruct (await _) as [pw|]; [|congruence].
  destruct (Nat.eqb _ _); [|congruence].
  destruct (pw_delay pw); [|done].
  intros [= <-]. by rewrite dom_run_ready, dom_fire.
Qed.

Lemma heap_child_ctor args w : heap (snd (child_ctor args w)) = heap w.
Proof. done. Qed.

Lemma heap_wait c w w' : wait c w = Some w' -> heap w' = heap w.
Proof. unfold wait. destruct (p_delay c); [|done]. by intros [= <-]. Qed.

Lemma dom_system fuel args w r w' :
  system fuel args w = Some (r, w') -> dom (heap w') = dom (heap w).
Proof.
  rewrite system_eq. unfold system_impl.
  destruct (needs_io_service args), (has_io_service args).
  - unfold system_impl_tt. destruct (get_io_service_var args) as [a|]; [|done].
    destruct (child_ctor _ _) as [c w1] eqn:E.
    assert (heap w1 = heap w) as Hh by (by injection E as _ <-).
    destruct (negb (valid c)); [intros [= <- <-]; by rewrite Hh|].
    destruct (poll_loop fuel a w1) as [w2|] eqn:El; [|done].
    intros [= <- <-]. by rewrite (dom_poll_loop _ _ _ _ El), Hh.
  - unfold system_impl_tf, system_impl_tf_scope, io_service_ctor.
    set (a := fresh (dom (heap w))).
    assert (a ∉ dom (heap w)) as Hfresh by apply is_fresh.
    destruct (child_ctor _ _) as [c w1] eqn:E.
    assert (heap w1 = <[a:=[]]> (heap w)) as Hh by (by injection E as _ <-).
    destruct (negb (valid c)).
    + intros [= <- <-]. simpl. rewrite Hh, dom_delete_L, dom_insert_L.
      set_solver.
    + destruct (run a w1) as [w2|] eqn:El; [|done].
      intros [= <- <-]. simpl.
      rewrite dom_delete_L, (dom_run _ _ _ El), Hh, dom_insert_L. set_solver.
  - unfold system_impl_ft.
    destruct (child_ctor _ _) as [c w1] eqn:E.
    assert (heap w1 = heap w) as Hh by (by injection E as _ <-).
    destruct (negb (valid c)); [intros [= <- <-]; by rewrite Hh|].
    destruct (wait c w1) as [w2|] eqn:El; [|done].
    intros [= <- <-]. by rewrite (heap_wait _ _ _ El), Hh.
  - unfold system_impl_ff.
    destruct (child_ctor _ _) as [c w1] eqn:E.
    assert (heap w1 = heap w) as Hh by (by injection E as _ <-).
    destruct (negb (valid c)); [intros [= <- <-]; by rewrite Hh|].
    destruct (wait c w1) as [w2|] eqn:El; [|done].
    intros [= <- <-]. by rewrite (heap_wait _ _ _ El), Hh.
Qed.

(** *** Packs without the hook *)

Lemma posted_user hs : forall h : gmap addr (list task),
  existsb is_hook hs = false -> posted hs h = h.
Proof.
  induction hs as [|hd hs IH]; intros h; [done|]. simpl.
  destruct hd; simpl; try done; apply IH.
Qed.

Lemma handler_events_user code ec hs :
  existsb is_hook hs = false ->
  handler_events code ec hs = map (on_exit_event code ec) hs.
Proof.
  induction hs as [|hd hs IH]; [done|]. rewrite handler_events_cons. simpl.
  destruct hd; simpl; try done; intros H; by rewrite (IH H).
Qed.

Lemma user_pack_handlers args :
  user_pack args = true -> existsb is_hook (on_exit_handlers args) = false.
Proof. unfold user_pack. by destruct (existsb _ _). Qed.

(** *** The events of the polling loop *)

Lemma poll_loop_drive a code ec hs n : forall fuel w q,
  heap w !! a = Some q ->
  existsb is_store q = false ->
  exited w = false ->
  await w = Some (Pending a (Some n) code ec (hs ++ [PostExited a])) ->
  existsb is_hook hs = false ->
  n < fuel ->
  poll_loop fuel a w =
  Some (World (<[a := []]> (heap w)) None code true
              (drive_events a code ec hs q n ++ trace w)).
Proof.
  induction n as [|k IH]; intros fuel w q Hq Hs Hex Ha Hu Hf;
    (destruct fuel as [|f]; [lia|]); simpl; rewrite Hex.
  - assert (posted (hs ++ [PostExited a]) (heap w) !! a
            = Some (q ++ [StoreExited])) as Hp.
    { rewrite posted_app, (posted_user hs _ Hu). simpl. rewrite Hq.
      by rewrite lookup_insert_eq. }
    rewrite (poll_fire a w _ code ec _ Hp Ha).
    rewrite poll_loop_exited;
      [|simpl; rewrite existsb_app; simpl; by rewrite !orb_true_r].
    f_equal.
    rewrite posted_app, (posted_user hs _ Hu). simpl. rewrite Hq.
    rewrite insert_insert_eq, existsb_app. simpl.
    rewrite orb_true_r, rev_handler_events_hook, (handler_events_user _ _ _ Hu).
    rewrite map_app, rev_app_distr. simpl. rewrite <- !app_assoc.
    rewrite orb_true_r. do 3 f_equal. simpl. do 2 f_equal.
    by rewrite <- app_assoc.
  - rewrite (poll_waiting a w q k code ec _ Hq Ha). rewrite Hs, Hex. simpl.
    rewrite (IH f _ []); simpl; try done; [|by rewrite lookup_insert_eq|lia].
    rewrite insert_insert_eq, <- !app_assoc. done.
Qed.

Lemma system_impl_tt_exact fuel args w a q r w' :
  get_io_service_var args = Some a ->
  heap w !! a = Some q ->
  existsb is_store q = false ->
  user_pack args = true ->
  let p := spawn (args ++ [OnExit (PostExited a)]) in
  p_valid p = true ->
  system_impl_tt fuel args w = Some (r, w') ->
  exists n,
    p_delay p = Some n /\ n < fuel /\ r = p_code p /\
    w' = World (<[a := []]> (heap w)) None (p_code p) true
               (drive_events a (p_code p) (p_ec p) (on_exit_handlers args) q n
                  ++ EvCreate (args ++ [OnExit (PostExited a)]) :: trace w).
Proof.
  intros Hg Hq Hs Hu p Hv Hr.
  assert (caller_owned a w = true) as Hc
    by (unfold caller_owned; by rewrite Hq, Hs).
  destruct (system_impl_tt_inv fuel args w a r w' Hg Hc Hv Hr)
    as [n [new [Hd [Hf [-> _]]]]].
  exists n. split; [done|]. split; [done|]. split; [done|].
  rewrite (system_impl_tt_loop fuel args w a Hg Hv) in Hr. cbv zeta in Hr.
  fold p in Hr, Hd. rewrite Hd in Hr.
  rewrite (poll_loop_drive a (p_code p) (p_ec p) (on_exit_handlers args) n
             fuel _ q) in Hr; try done; [|by apply user_pack_handlers].
  by injection Hr as <-.
Qed.

Lemma filter_on_exit_events (f : event -> bool) code ec hs :
  (forall h, f (EvOnExit h code ec) = true) ->
  List.filter f (rev (map (on_exit_event code ec) hs))
  = rev (map (on_exit_event code ec) hs).
Proof.
  intros Hf. apply forallb_filter_id. apply forallb_forall.
  intros e [h [<- _]]%in_rev%in_map_iff. apply Hf.
Qed.

Lemma filter_on_exit_events_nil (f : event -> bool) code ec hs :
  (forall h, f (EvOnExit h code ec) = false) ->
  List.filter f (rev (map (on_exit_event code ec) hs)) = [].
Proof.
  intros Hf. induction hs as [|h hs IH]; [done|]. simpl.
  rewrite List.filter_app, IH. simpl. unfold on_exit_event. by rewrite Hf.
Qed.


Lemma filter_store_task_events q :
  existsb is_store q = false ->
  List.filter is_store_event (rev (map task_event q)) = [].
Proof.
  intros Hs. induction q as [|t q IH]; [done|]. simpl in *.
  apply orb_false_elim in Hs as [Ht Hq].
  rewrite List.filter_app, (IH Hq). by destruct t.
Qed.

Lemma drive_events_on_exit a code ec hs n : forall q,
  List.filter is_on_exit (drive_events a code ec hs q n)
  = EvOnExit (PostExited a) code ec :: rev (map (on_exit_event code ec) hs).
Proof.
  induction n as [|k IH]; intros q; simpl.
  - rewrite List.filter_app, filter_task_events; [|by intros []]. simpl.
    rewrite List.filter_app, filter_on_exit_events; [|done]. simpl.
    by rewrite app_nil_r.
  - rewrite !List.filter_app, IH, filter_task_events; [|by intros []].
    simpl. by rewrite app_nil_r.
Qed.


Lemma drive_events_store a code ec hs n : forall q,
  existsb is_store q = false ->
  List.filter is_store_event (drive_events a code ec hs q n) = [EvStore].
Proof.
  induction n as [|k IH]; intros q Hs; simpl.
  - rewrite List.filter_app, (filter_store_task_events _ Hs). simpl.
    rewrite List.filter_app, filter_on_exit_events_nil; [|done]. done.
  - rewrite !List.filter_app, (IH [] eq_refl),
      (filter_store_task_events _ Hs). done.
Qed.

Lemma drive_events_blocking a code ec hs n : forall q,
  List.filter is_blocking_or_scope (drive_events a code ec hs q n) = [].
Proof.
  induction n as [|k IH]; intros q; simpl.
  - rewrite List.filter_app, filter_task_events; [|by intros []]. simpl.
    rewrite List.filter_app, filter_on_exit_events_nil; [|done]. done.
  - rewrite !List.filter_app, IH, filter_task_events; [|by intros []]. done.
Qed.

(** *** The second overload, exactly *)

Lemma system_impl_tf_exact args w r w' :
  needs_io_service args = true ->
  user_pack args = true ->
  let a := fresh (dom (heap w)) in
  let p := spawn (IoService a :: args) in
  p_valid p = true ->
  system_impl_tf args w = Some (r, w') ->
  r = p_code p /\
  w' = World (heap w) None (p_code p) (exited w)
             (EvIosDtor a
                :: rev (map (on_exit_event (p_code p) (p_ec p))
                          (on_exit_handlers args))
                ++ EvRun a :: EvCreate (IoService a :: args) :: EvIosCtor a
                :: trace w).
Proof.
  intros Hn Hu a p Hv.
  destruct (p_delay p) as [n|] eqn:Hd;
    [|by rewrite (system_impl_tf_never args w Hn Hv Hd)].
  apply user_pack_handlers in Hu.
  unfold system_impl_tf, system_impl_tf_scope, io_service_ctor.
  fold a. unfold child_ctor, valid. fold p. rewrite Hv. simpl.
  rewrite Hn, Hd. simpl.
  erewrite (run_fires a _ [] [] n); [| |reflexivity|];
    [|by simpl; rewrite lookup_insert_eq
     |by simpl; rewrite (posted_user _ _ Hu), lookup_insert_eq].
  simpl. intros [= <- <-]. split; [done|].
  unfold io_service_dtor, log, set_heap. simpl.
  rewrite (posted_user _ _ Hu), !insert_insert_eq, delete_insert_id;
    [|apply fresh_ios_new].
  rewrite (handler_events_user _ _ _ Hu), !orb_false_r. done.
Qed.

(** *** What a call leaves of the io_services of the caller *)

Lemma heap_system fuel args w r w' :
  user_pack args = true ->
  well_formed args w = true ->
  system fuel args w = Some (r, w') ->
  heap w' = heap w
  \/ (needs_io_service args = true
      /\ exists a, get_io_service_var args = Some a
                   /\ p_valid (spawn (args ++ [OnExit (PostExited a)])) = true
                   /\ heap w' = <[a := []]> (heap w)).
Proof.
  intros Hu. rewrite system_eq. unfold well_formed, system_impl.
  destruct (needs_io_service args) eqn:Hn, (has_io_service args) eqn:Hh.
  - destruct (proj1 (has_io_service_get args) Hh) as [a Hg]. rewrite Hg.
    intros Hc Hr.
    destruct (p_valid (spawn (args ++ [OnExit (PostExited a)]))) eqn:Hv.
    + destruct (caller_owned_live a w Hc) as [q [Hq Hs]].
      destruct (system_impl_tt_exact fuel args w a q r w' Hg Hq Hs Hu Hv Hr)
        as [n [_ [_ [_ ->]]]].
      right. split; [done|]. by exists a.
    + rewrite (system_impl_tt_invalid fuel args w a Hg Hv) in Hr.
      injection Hr as _ <-. by left.
  - intros _ Hr. left.
    destruct (p_valid (spawn (IoService (fresh (dom (heap w))) :: args)))
      eqn:Hv.
    + by destruct (system_impl_tf_exact args w r w' Hn Hu Hv Hr) as [_ ->].
    + rewrite (proj2 (system_impl_tf_invalid args w Hv)) in Hr.
      by injection Hr as _ <-.
  - intros _. unfold system_impl_ft. rewrite (blocking_eq args w Hn).
    cbv zeta. left. destruct (p_valid (spawn args)); simpl in *.
    + destruct (p_delay (spawn args)); [|done]. by injection H as _ <-.
    + by injection H as _ <-.
  - intros _. unfold system_impl_ff.
    rewrite blocking_eq; [|by rewrite needs_io_service_sig_dfl].
    cbv zeta. left. destruct (p_valid (spawn _)); simpl in *.
    + destruct (p_delay (spawn _)); [|done]. by injection H as _ <-.
    + by injection H as _ <-.
Qed.

Lemma heap_system_exact fuel args w r w' :
  user_pack args = true ->
  well_formed args w = true ->
  system fuel args w = Some (r, w') ->
  (needs_io_service args && has_io_service args
   && p_valid (spawn (child_args args w)) = true ->
   exists a q, get_io_service_var args = Some a /\ heap w !! a = Some q
               /\ heap w' = <[a := []]> (heap w))
  /\ (needs_io_service args && has_io_service args
      && p_valid (spawn (child_args args w)) = false ->
      heap w' = heap w).
Proof.
  intros Hu. rewrite system_eq. unfold well_formed, child_args, system_impl.
  destruct (needs_io_service args) eqn:Hn, (has_io_service args) eqn:Hh;
    simpl.
  - destruct (proj1 (has_io_service_get args) Hh) as [a Hg]. rewrite Hg.
    intros Hc Hr.
    destruct (p_valid (spawn (args ++ [OnExit (PostExited a)]))) eqn:Hv.
    + destruct (caller_owned_live a w Hc) as [q [Hq Hs]].
      destruct (system_impl_tt_exact fuel args w a q r w' Hg Hq Hs Hu Hv Hr)
        as [n [_ [_ [_ ->]]]].
      split; [|done]. intros _. by exists a, q.
    + rewrite (system_impl_tt_invalid fuel args w a Hg Hv) in Hr.
      injection Hr as _ <-. by split.
  - intros _ Hr. split; [done|]. intros _.
    destruct (p_valid (spawn (IoService (fresh (dom (heap w))) :: args)))
      eqn:Hv.
    + by destruct (system_impl_tf_exact args w r w' Hn Hu Hv Hr) as [_ ->].
    + rewrite (proj2 (system_impl_tf_invalid args w Hv)) in Hr.
      by injection Hr as _ <-.
  - intros _ Hr. split; [done|]. intros _. revert Hr.
    unfold system_impl_ft. rewrite (blocking_eq args w Hn).
    cbv zeta. destruct (p_valid (spawn args)); simpl.
    + destruct (p_delay (spawn args)); [|done]. by intros [= _ <-].
    + by intros [= _ <-].
  - intros _ Hr. split; [done|]. intros _. revert Hr.
    unfold system_impl_ff.
    rewrite blocking_eq; [|by rewrite needs_io_service_sig_dfl].
    cbv zeta. destruct (p_valid (spawn _)); simpl.
    + destruct (p_delay (spawn _)); [|done]. by intros [= _ <-].
    + by intros [= _ <-].
Qed.

Lemma well_formed_system fuel args w r w' args2 :
  user_pack args = true ->
  well_formed args w = true ->
  system fuel args w = Some (r, w') ->
  well_formed args2 w = true ->
  well_formed args2 w' = true.
Proof.
  intros Hu Hw Hr. unfold well_formed, caller_owned.
  destruct (get_io_service_var args2) as [b|]; [|done].
  destruct (heap_system fuel args w r w' Hu Hw Hr)
    as [->|[_ [a [_ [_ ->]]]]]; [done|].
  destruct (decide (a = b)) as [->|Hne].
  - by rewrite lookup_insert_eq.
  - by rewrite lookup_insert_ne.
Qed.

(** ** Further properties, stated *)

(** X1: whatever the pack and the strategy, a call of [system] that returns
    leaves the set of live io_services as it found it: the io_service it
    constructs for itself is gone and none of the caller is destroyed. *)
Theorem live_io_services_preserved fuel args w r w' :
  system fuel args w = Some (r, w') -> dom (heap w') = dom (heap w).
Proof. apply dom_system. Qed.

(** X2: a call that returns has drained the supplied io_service, and
    changed no other, when the drive-supplied strategy ran with a valid
    child; in every other case (another strategy, or a child that could not
    be created) the ready handlers of every io_service of the caller are as
    they were. *)
Theorem callers_io_services_framed fuel args w r w' :
  user_pack args = true ->
  well_formed args w = true ->
  system fuel args w = Some (r, w') ->
  let driven :=
    needs_io_service args && has_io_service args
    && p_valid (spawn (child_args args w)) in
  (driven = true ->
   exists a q, get_io_service_var args = Some a
               /\ heap w !! a = Some q
               /\ heap w' = <[a := []]> (heap w)
               /\ heap w' !! a = Some []
               /\ forall b, b <> a -> heap w' !! b = heap w !! b)
  /\ (driven = false -> heap w' = heap w).
Proof.
  intros Hu Hw Hr driven.
  destruct (heap_system_exact fuel args w r w' Hu Hw Hr) as [H1 H2].
  split; [|exact H2]. intros Hd. destruct (H1 Hd) as [a [q [Hg [Hq Hh]]]].
  exists a, q. split; [done|]. split; [done|]. split; [done|].
  rewrite Hh. split; [by rewrite lookup_insert_eq|].
  intros b Hb. by rewrite lookup_insert_ne.
Qed.

(** X3: in the drive-supplied strategy, by the time [system] returns every
    completion handler of the pack and the hook of system_impl have each
    been invoked exactly once, with the exit code and the error code of the
    child (in whatever order the process layer notifies them). *)
Theorem drive_supplied_handlers_once fuel args w a q r w' :
  needs_io_service args = true ->
  has_io_service args = true ->
  get_io_service_var args = Some a ->
  heap w !! a = Some q ->
  existsb is_store q = false ->
  user_pack args = true ->
  let hooked := args ++ [OnExit (PostExited a)] in
  let p := spawn hooked in
  p_valid p = true ->
  system fuel args w = Some (r, w') ->
  exists new,
    trace w' = new ++ EvCreate hooked :: trace w /\
    Permutation (List.filter is_on_exit new)
      (map (on_exit_event (p_code p) (p_ec p))
         (PostExited a :: on_exit_handlers args)).
Proof.
  intros Hn Hh Hg Hq Hs Hu hooked p Hv. rewrite system_eq, Hn, Hh.
  intros Hr.
  destruct (system_impl_tt_exact fuel args w a q r w' Hg Hq Hs Hu Hv Hr)
    as [n [_ [_ [_ ->]]]].
  eexists. split; [reflexivity|]. rewrite drive_events_on_exit. simpl.
  apply perm_skip. symmetry. apply Permutation_rev.
Qed.


(** X5: the drive-supplied strategy only polls: a call that returns has
    made no blocking wait on the process and no run of an io_service, has
    constructed or destroyed no io_service, and has stored the exit flag
    exactly once. *)
Theorem drive_supplied_only_polls fuel args w a q r w' :
  needs_io_service args = true ->
  has_io_service args = true ->
  get_io_service_var args = Some a ->
  heap w !! a = Some q ->
  existsb is_store q = false ->
  user_pack args = true ->
  let hooked := args ++ [OnExit (PostExited a)] in
  p_valid (spawn hooked) = true ->
  system fuel args w = Some (r, w') ->
  exists new,
    trace w' = new ++ EvCreate hooked :: trace w /\
    List.filter is_blocking_or_scope new = [] /\
    List.filter is_store_event new = [EvStore].
Proof.
  intros Hn Hh Hg Hq Hs Hu hooked Hv. rewrite system_eq, Hn, Hh.
  intros Hr.
  destruct (system_impl_tt_exact fuel args w a q r w' Hg Hq Hs Hu Hv Hr)
    as [n [_ [_ [_ ->]]]].
  eexists. split; [reflexivity|].
  split; [apply drive_events_blocking|by apply drive_events_store].
Qed.


(** X7: no overload gives up waiting.  With a valid child that never exits
    [system] does not return, in any of the four strategies; and the polling
    loop of the drive-supplied strategy is still running after [fuel] polls
    when the exit takes at least that many rounds to be reported. *)
Theorem system_blocks_until_exit fuel args w :
  well_formed args w = true ->
  let p := spawn (child_args args w) in
  p_valid p = true ->
  (p_delay p = None -> system fuel args w = None)
  /\ (needs_io_service args = true -> has_io_service args = true ->
      forall n, p_delay p = Some n -> fuel <= n -> system fuel args w = None).
Proof.
  cbv zeta. rewrite system_eq. unfold well_formed, child_args, system_impl.
  destruct (needs_io_service args) eqn:Hn, (has_io_service args) eqn:Hh.
  - destruct (proj1 (has_io_service_get args) Hh) as [a Hg]. rewrite Hg.
    intros Hc Hv. split.
    + intros Hd. apply (system_impl_tt_blocked fuel args w a Hg Hc Hv).
      by rewrite Hd.
    + intros _ _ n Hd Hf. apply (system_impl_tt_blocked fuel args w a Hg Hc Hv).
      by rewrite Hd.
  - intros _ Hv. split; [|done].
    intros Hd. by apply system_impl_tf_never.
  - intros _ Hv. split; [|done]. intros Hd.
    unfold system_impl_ft. rewrite (blocking_eq args w Hn).
    cbv zeta. by rewrite Hv, Hd.
  - intros _ Hv. split; [|done]. intros Hd.
    unfold system_impl_ff.
    rewrite blocking_eq; [|by rewrite needs_io_service_sig_dfl].
    cbv zeta. by rewrite Hv, Hd.
Qed.

(** X8: calls compose.  After a call of [system] that returned, a second
    call, in any strategy, on a pack whose io_service was in order before
    the first call creates its child from the same arguments as it would
    have before, and returns the exit code of its own child once that child
    has exited: neither the exit flag nor the exit status left by the first
    call is taken for the second's. *)
Theorem consecutive_calls fuel1 fuel2 args1 args2 w r1 w1 n2 :
  user_pack args1 = true ->
  well_formed args1 w = true ->
  well_formed args2 w = true ->
  system fuel1 args1 w = Some (r1, w1) ->
  let p2 := spawn (child_args args2 w1) in
  p_valid p2 = true ->
  p_delay p2 = Some n2 ->
  n2 < fuel2 ->
  child_args args2 w1 = child_args args2 w
  /\ exists w2, system fuel2 args2 w1 = Some (p_code p2, w2)
                /\ exit_status w2 = p_code p2.
Proof.
  intros Hu Hw1 Hw2 Hr p2 Hv Hd Hf.
  split.
  { unfold child_args. by rewrite (dom_system fuel1 args1 w r1 w1 Hr). }
  pose proof (well_formed_system fuel1 args1 w r1 w1 args2 Hu Hw1 Hr Hw2) as Hw.
  destruct (system_valid_returns fuel2 args2 w1 n2 Hw Hv Hd Hf) as [w2 Hr2].
  exists w2. split; [done|].
  by destruct (system_valid_inv fuel2 args2 w1 _ w2 Hw Hv Hr2) as [_ [-> _]].
Qed.

End System.

(** ** The classification is independent of the order of the pack *)

Lemma existsb_Permutation {A} (f : A -> bool) (l l' : list A) :
  Permutation l l' -> existsb f l = existsb f l'.
Proof.
  induction 1 as [|x l l' _ IH|x y l|l l' l'' _ IH1 _ IH2]; simpl.
  - done.
  - by rewrite IH.
  - by destruct (f x), (f y).
  - by rewrite IH1.
Qed.

(** C8: [needs_io_service] and [has_io_service] are functions of the pack
    (pure and total) and do not depend on the order of its options: a
    permutation of the pack has the same two values and selects the same
    strategy. *)
Theorem classification_order_independent (args args' : list arg) :
  Permutation args args' ->
  needs_io_service args = needs_io_service args'
  /\ has_io_service args = has_io_service args'
  /\ StrategySelector (needs_io_service args) (has_io_service args)
     = StrategySelector (needs_io_service args') (has_io_service args').
Proof.
  intros H. unfold needs_io_service, has_io_service.
  rewrite (existsb_Permutation is_async _ _ H),
    (existsb_Permutation is_io_service _ _ H). done.
Qed.

(** C10: in the drive-supplied strategy the error code handed to the
    completion hook plays no part in the result: whatever error code [ec]
    the process layer delivers, the hook receives it, and a call with a
    valid child that returns gives the exit code of the child; it returns
    once the child has exited. *)
Theorem error_code_discarded spawn still_active posix fuel args w a ec :
  needs_io_service args = true ->
  has_io_service args = true ->
  get_io_service_var args = Some a ->
  caller_owned a w = true ->
  let p := spawn (args ++ [OnExit (PostExited a)]) in
  p_valid p = true ->
  (forall r w',
     system (with_ec ec spawn) still_active posix fuel args w = Some (r, w') ->
     r = p_code p /\ In (EvOnExit (PostExited a) (p_code p) ec) (trace w'))
  /\ (forall n, p_delay p = Some n -> n < fuel ->
      exists w',
        system (with_ec ec spawn) still_active posix fuel args w
        = Some (p_code p, w')).
Proof.
  intros Hn Hh Hg Hc p Hv.
  rewrite system_eq, Hn, Hh. unfold system_impl. split.
  - intros r w' Hr.
    destruct (system_impl_tt_inv (with_ec ec spawn) still_active fuel args w a
                r w' Hg Hc Hv Hr)
      as [n [new [_ [_ [-> [_ [_ [_ [Ht [Hb _]]]]]]]]]].
    destruct Hb as [l1 [l2 [-> _]]].
    split; [done|]. rewrite Ht. simpl.
    apply in_or_app. left. apply in_or_app. right. by left.
  - intros n Hd Hf.
    destruct (system_impl_tt_returns (with_ec ec spawn) still_active fuel args
                w a n Hg Hc Hv Hd Hf) as [w' [new [Hr _]]].
    eauto.
Qed.

(** ** The claims at concrete calls *)

Lemma system_dispatch_witness :
  system spawn_ok 259%Z true 5 args_tt w_caller
  = run_strategy spawn_ok 259%Z true DriveSupplied 5 args_tt w_caller.
Proof.
  exact (proj1 (system_dispatch spawn_ok 259%Z true 5 args_tt w_caller)).
Defined.

Lemma creation_failure_witness :
  (p_valid (spawn_fail (child_args true args_tf w_caller)) = false
   /\ exists w' new,
       system spawn_fail 259%Z true 0 args_tf w_caller = Some ((-1)%Z, w')
       /\ trace w' = new ++ trace w_caller
       /\ List.filter is_waiting new = [] /\ heap w' = heap w_caller)
  /\ (p_valid (spawn_ok (child_args true args_tt w_caller)) = true
      /\ well_formed args_tt w_caller = true
      /\ exists w',
          system spawn_ok 259%Z true 5 args_tt w_caller = Some (7%Z, w')).
Proof.
  split; (split; [reflexivity|]).
  - exact (proj1 (creation_failure_returns_sentinel spawn_fail 259%Z true 0
                    args_tf w_caller) eq_refl).
  - split; [reflexivity|].
    exact (proj2 (proj2 (creation_failure_returns_sentinel spawn_ok 259%Z true
                           5 args_tt w_caller) eq_refl eq_refl)
             2 eq_refl (proj1 (Nat.ltb_lt 2 5) eq_refl)).
Defined.

Lemma drive_supplied_witness :
  needs_io_service args_tt = true /\ has_io_service args_tt = true
  /\ get_io_service_var args_tt = Some 5 /\ caller_owned 5 w_caller = true
  /\ p_valid (spawn_ok (args_tt ++ [OnExit (PostExited 5)])) = true
  /\ exists w', system spawn_ok 259%Z true 5 args_tt w_caller = Some (7%Z, w').
Proof.
  repeat (split; [reflexivity|]).
  exact (proj2 (proj2 (drive_supplied_polls_until_exited spawn_ok 259%Z true 5
                         args_tt w_caller 5 eq_refl eq_refl eq_refl eq_refl
                         eq_refl))
           2 eq_refl (proj1 (Nat.ltb_lt 2 5) eq_refl)).
Defined.

Lemma own_and_run_witness :
  needs_io_service args_tf = true /\ has_io_service args_tf = false
  /\ is_Some (system spawn_ok 259%Z true 0 args_tf w_caller).
Proof.
  repeat (split; [reflexivity|]).
  apply (proj2 (proj2 (own_and_run_scheduler_scoped spawn_ok 259%Z true 0
                         args_tf w_caller eq_refl eq_refl))).
  right. exists 2. reflexivity.
Defined.

Lemma blocking_with_supplied_witness :
  needs_io_service args_ft = false /\ has_io_service args_ft = true
  /\ exists w', system spawn_ok 259%Z true 0 args_ft w_caller = Some (7%Z, w').
Proof.
  repeat (split; [reflexivity|]).
  apply (proj2 (blocking_with_supplied_untouched spawn_ok 259%Z true 0
                  args_ft w_caller eq_refl eq_refl)).
  - reflexivity.
  - exists 2. reflexivity.
Defined.

Lemma blocking_plain_witness :
  needs_io_service args_ff = false /\ has_io_service args_ff = false
  /\ p_valid (spawn_ok (args_ff ++ [SigDfl])) = true
  /\ exists w', system spawn_ok 259%Z true 0 args_ff w_caller = Some (7%Z, w').
Proof.
  repeat (split; [reflexivity|]).
  apply (proj1 (proj2 (blocking_plain_waits spawn_ok 259%Z true 0
                         args_ff w_caller eq_refl eq_refl eq_refl))).
  exists 2. reflexivity.
Defined.

(** C7 (as stated) fails: on a build without BOOST_POSIX_API, where an exit
    code is a full 32-bit value, a child that is created and exits with
    code -1 makes [system] return -1, the value returned when no child could
    be created. *)
Lemma sentinel_returned_for_valid_child :
  p_valid (spawn_minus_one (child_args false args_ff w_caller)) = true
  /\ exists w',
      system spawn_minus_one 259%Z false 0 args_ff w_caller
      = Some ((-1)%Z, w').
Proof. split; [reflexivity|]. eexists. vm_compute. reflexivity. Qed.

Lemma exit_code_passed_through_witness :
  (well_formed args_ff w_caller = true
   /\ p_valid (spawn_fail (child_args false args_ff w_caller)) = false
   /\ exists w',
       system spawn_fail 259%Z false 0 args_ff w_caller = Some ((-1)%Z, w'))
  /\ (well_formed args_tt w_caller = true
      /\ p_valid (spawn_ok (child_args true args_tt w_caller)) = true
      /\ p_delay (spawn_ok (child_args true args_tt w_caller)) = Some 2
      /\ exists w',
          system spawn_ok 259%Z true 5 args_tt w_caller = Some (7%Z, w')
          /\ 7%Z <> (-1)%Z).
Proof.
  split; repeat (split; [reflexivity|]).
  - exact (proj1 (exit_code_passed_through spawn_fail 259%Z false 0 args_ff
                    w_caller eq_refl) eq_refl).
  - destruct (proj1 (proj2 (exit_code_passed_through spawn_ok 259%Z true 5
                              args_tt w_caller eq_refl) eq_refl)
                2 eq_refl (proj1 (Nat.ltb_lt 2 5) eq_refl)) as [w' H].
    exists w'. split; [exact H|].
    apply (proj2 (proj2 (proj2 (proj2 (exit_code_passed_through spawn_ok
                                         259%Z true 5 args_tt w_caller
                                         eq_refl) eq_refl)
                                 7%Z w' H))).
    split; intro E; vm_compute in E; discriminate E.
Defined.

Lemma classification_witness :
  Permutation args_tt [OnExit (User 3); Exe 1; IoService 5]
  /\ needs_io_service args_tt
     = needs_io_service [OnExit (User 3); Exe 1; IoService 5].
Proof.
  assert (Permutation args_tt [OnExit (User 3); Exe 1; IoService 5]) as H.
  { unfold args_tt. eapply perm_trans; [apply perm_skip, perm_swap|].
    apply perm_swap. }
  split; [exact H|].
  exact (proj1 (classification_order_independent _ _ H)).
Defined.

Lemma exit_flag_witness :
  needs_io_service args_tt = true /\ has_io_service args_tt = true
  /\ get_io_service_var args_tt = Some 5
  /\ p_valid (spawn_ok (args_tt ++ [OnExit (PostExited 5)])) = true
  /\ caller_owned 5 w_caller = true
  /\ p_delay (spawn_ok (args_tt ++ [OnExit (PostExited 5)])) = Some 2
  /\ system spawn_ok 259%Z true 5 args_tt w_caller
     = Some (7%Z,
             Nat.iter 3 (poll 5)
               (snd (child_ctor spawn_ok 259%Z
                       (args_tt ++ [OnExit (PostExited 5)])
                       (set_exited false w_caller))))
  /\ exited (Nat.iter 2 (poll 5)
               (snd (child_ctor spawn_ok 259%Z
                       (args_tt ++ [OnExit (PostExited 5)])
                       (set_exited false w_caller)))) = false
  /\ exited (Nat.iter 3 (poll 5)
               (snd (child_ctor spawn_ok 259%Z
                       (args_tt ++ [OnExit (PostExited 5)])
                       (set_exited false w_caller)))) = true.
Proof.
  do 6 (split; [reflexivity|]).
  destruct (proj2 (proj2 (proj2 (proj2 (proj2
              (exit_flag_set_inside_poll spawn_ok 259%Z true 5 args_tt
                 w_caller 5 eq_refl eq_refl eq_refl eq_refl)))))
              2 eq_refl eq_refl (proj1 (Nat.ltb_lt 2 5) eq_refl))
    as [Hr [Hf [Ht _]]].
  split; [exact Hr|]. split; [exact (Hf 2 (le_n 2))|exact Ht].
Defined.

Lemma error_code_discarded_witness :
  needs_io_service args_tt = true /\ has_io_service args_tt = true
  /\ get_io_service_var args_tt = Some 5 /\ caller_owned 5 w_caller = true
  /\ p_valid (spawn_ok (args_tt ++ [OnExit (PostExited 5)])) = true
  /\ exists w',
      system (with_ec 42%Z spawn_ok) 259%Z true 5 args_tt w_caller
      = Some (7%Z, w').
Proof.
  repeat (split; [reflexivity|]).
  exact (proj2 (error_code_discarded spawn_ok 259%Z true 5 args_tt w_caller 5
                  42%Z eq_refl eq_refl eq_refl eq_refl eq_refl)
           2 eq_refl (proj1 (Nat.ltb_lt 2 5) eq_refl)).
Defined.

(** ** The further properties at concrete calls *)

Ltac run_call := vm_compute; reflexivity.

Lemma live_io_services_witness :
  exists r w',
    system spawn_ok 259%Z true 0 args_tf w_caller = Some (r, w')
    /\ dom (heap w') = dom (heap w_caller).
Proof.
  eexists _, _. split; [run_call|].
  eapply (live_io_services_preserved spawn_ok 259%Z true 0 args_tf w_caller).
  run_call.
Defined.

Lemma callers_io_services_witness :
  user_pack args_tt = true /\ well_formed args_tt w_caller = true
  /\ exists r w',
      system spawn_ok 259%Z true 5 args_tt w_caller = Some (r, w')
      /\ exists a q,
          get_io_service_var args_tt = Some a
          /\ heap w_caller !! a = Some q
          /\ heap w' = <[a := []]> (heap w_caller)
          /\ heap w' !! a = Some []
          /\ forall b, b <> a -> heap w' !! b = heap w_caller !! b.
Proof.
  repeat (split; [reflexivity|]).
  eexists _, _. split; [run_call|].
  eapply (proj1 (callers_io_services_framed spawn_ok 259%Z true 5 args_tt
                   w_caller _ _ eq_refl eq_refl ltac:(run_call))).
  reflexivity.
Defined.

Lemma drive_supplied_handlers_witness :
  heap w_caller !! 5 = Some [Foreign 1] /\ user_pack args_tt = true
  /\ exists r w',
      system spawn_ok 259%Z true 5 args_tt w_caller = Some (r, w')
      /\ exists new,
          trace w' = new ++ EvCreate (args_tt ++ [OnExit (PostExited 5)])
                            :: trace w_caller
          /\ Permutation (List.filter is_on_exit new)
               [EvOnExit (PostExited 5) 7%Z 0%Z; EvOnExit (User 3) 7%Z 0%Z].
Proof.
  repeat (split; [reflexivity|]).
  eexists _, _. split; [run_call|].
  eapply (drive_supplied_handlers_once spawn_ok 259%Z true 5 args_tt
            w_caller 5 [Foreign 1]); first [reflexivity|run_call].
Defined.


Lemma drive_supplied_only_polls_witness :
  heap w_caller !! 5 = Some [Foreign 1] /\ user_pack args_tt = true
  /\ exists r w',
      system spawn_ok 259%Z true 5 args_tt w_caller = Some (r, w')
      /\ exists new,
          trace w' = new ++ EvCreate (args_tt ++ [OnExit (PostExited 5)])
                            :: trace w_caller
          /\ List.filter is_blocking_or_scope new = []
          /\ List.filter is_store_event new = [EvStore].
Proof.
  repeat (split; [reflexivity|]).
  eexists _, _. split; [run_call|].
  eapply (drive_supplied_only_polls spawn_ok 259%Z true 5 args_tt
            w_caller 5 [Foreign 1]); first [reflexivity|run_call].
Defined.


Lemma system_blocks_witness :
  (well_formed args_ft w_caller = true
   /\ p_valid (spawn_never (child_args true args_ft w_caller)) = true
   /\ p_delay (spawn_never (child_args true args_ft w_caller)) = None
   /\ system spawn_never 259%Z true 9 args_ft w_caller = None)
  /\ (well_formed args_tt w_caller = true
      /\ p_delay (spawn_ok (child_args true args_tt w_caller)) = Some 2
      /\ system spawn_ok 259%Z true 2 args_tt w_caller = None).
Proof.
  split; repeat (split; [reflexivity|]).
  - exact (proj1 (system_blocks_until_exit spawn_never 259%Z true 9 args_ft
                    w_caller eq_refl eq_refl) eq_refl).
  - exact (proj2 (system_blocks_until_exit spawn_ok 259%Z true 2 args_tt
                    w_caller eq_refl eq_refl) eq_refl eq_refl 2 eq_refl
             (le_n 2)).
Defined.

Lemma consecutive_calls_witness :
  user_pack args_tt = true /\ well_formed args_tt w_caller = true
  /\ well_formed args_tf w_caller = true
  /\ exists r1 w1,
      system spawn_ok 259%Z true 5 args_tt w_caller = Some (r1, w1)
      /\ exists w2, system spawn_ok 259%Z true 5 args_tf w1 = Some (7%Z, w2).
Proof.
  repeat (split; [reflexivity|]).
  eexists _, _. split; [run_call|].
  match goal with
  | |- exists w2, system _ _ _ _ _ ?W = _ =>
      destruct (proj2 (consecutive_calls spawn_ok 259%Z true 5 5 args_tt
                         args_tf w_caller 7%Z W 2 eq_refl eq_refl eq_refl
                         ltac:(run_call) eq_refl eq_refl
                         (proj1 (Nat.ltb_lt 2 5) eq_refl)))
        as [w2 [H2 _]]
  end.
  exists w2. exact H2.
Defined.
